(** * Disc-cleaner: the streaming folder statistics of [space_extractor_modern.py]

    A shallow embedding of [collect_folder_stats_streaming],
    [_make_ext_summary], [_heap_to_list] and [quick_count_files], together
    with the pieces of the Python library they run on: [heapq.heappush] and
    [heapq.heappushpop] over a list used as an array, tuple comparison,
    [sorted(..., reverse=True)], insertion-ordered dictionaries,
    [os.path.join], [pathlib]'s [suffix] and top-down [os.walk].

    The model then covers the other walkers of the file: [iter_all_files],
    [get_common_cache_paths], [get_cache_summary], the call of the scan
    made from the two pages, and the walk of [cache_clean_all] over a
    cache path, which changes the tree and returns the one that is left.

    Conventions.
    - Python [int] is [Z]; list indices and lengths are [nat].
    - A [str] is a [string] read as a sequence of code points below 256;
      comparison is by code point, as in Python.
    - A directory tree is a value: the file system does not change while it
      is being walked.
    - [time.time()] and the [elapsed] argument handed to the progress
      callback are floating point wall-clock readings and are left out of
      the recorded progress events. *)

From Stdlib Require Import Ascii String.
From stdpp Require Import base tactics option list numbers strings sorting.

Local Open Scope Z_scope.

(** ** Strings and paths *)

Module Str.

Definition dot : ascii := "."%char.
Definition sep : ascii := "/"%char.

Definition is_empty (s : string) : bool :=
  match s with EmptyString => true | String _ _ => false end.

(** [c in s] *)
Fixpoint contains (c : ascii) (s : string) : bool :=
  match s with
  | EmptyString => false
  | String a r => Ascii.eqb a c || contains c r
  end.

(** [s.startswith(c)] and [s.endswith(c)] for a one-character [c]. *)
Definition startswith (c : ascii) (s : string) : bool :=
  match s with EmptyString => false | String a _ => Ascii.eqb a c end.

Fixpoint endswith (c : ascii) (s : string) : bool :=
  match s with
  | EmptyString => false
  | String a EmptyString => Ascii.eqb a c
  | String _ r => endswith c r
  end.

(** [s.rfind(c)]: the index of the last occurrence, [None] for Python's -1. *)
Fixpoint rfind (c : ascii) (s : string) : option nat :=
  match s with
  | EmptyString => None
  | String a r =>
      match rfind c r with
      | Some i => Some (S i)
      | None => if Ascii.eqb a c then Some 0%nat else None
      end
  end.

(** [s[i:]] *)
Fixpoint drop (i : nat) (s : string) : string :=
  match i, s with
  | O, _ => s
  | S _, EmptyString => EmptyString
  | S i', String _ r => drop i' r
  end.

(** [str.lower()] on the code points below 256: A-Z and the Latin-1
    capitals (0xC0-0xDE except the multiplication sign 0xD7) move up by
    0x20, every other code point is kept. *)
Definition lower_char (c : ascii) : ascii :=
  let n := N_of_ascii c in
  if ((65 <=? n) && (n <=? 90))%N
     || ((192 <=? n) && (n <=? 222) && negb (n =? 215))%N
  then ascii_of_N (n + 32) else c.

Fixpoint lower (s : string) : string :=
  match s with
  | EmptyString => EmptyString
  | String a r => String (lower_char a) (lower r)
  end.

End Str.

(** [posixpath.join(a, b)] *)
Definition path_join (a b : string) : string :=
  if Str.startswith Str.sep b then b
  else if Str.is_empty a || Str.endswith Str.sep a then a +:+ b
  else a +:+ String Str.sep b.

(** [Path(fp).name] for a path whose last component is a file name as
    [os.walk] lists it (not empty, not [.]): the text after the last
    separator. *)
Fixpoint path_name (fp : string) : string :=
  match fp with
  | EmptyString => EmptyString
  | String a r =>
      if Str.contains Str.sep r then path_name r
      else if Ascii.eqb a Str.sep then r else fp
  end.

(** [PurePath.suffix] as CPython has it up to 3.13:
    [i = name.rfind('.')]; [name[i:]] if [0 < i < len(name) - 1], else ['']. *)
Definition name_suffix (name : string) : string :=
  match Str.rfind Str.dot name with
  | Some i =>
      if (0 <? i)%nat && (i <? String.length name - 1)%nat
      then Str.drop i name else EmptyString
  | None => EmptyString
  end.

Definition path_suffix (fp : string) : string := name_suffix (path_name fp).

Definition no_ext : string := "<no-ext>".

(** [Path(fp).suffix.lower() or "<no-ext>"] *)
Definition ext_of (fp : string) : string :=
  let s := Str.lower (path_suffix fp) in
  if Str.is_empty s then no_ext else s.

(** ** Tuples [(sz, fp)] and their comparison *)

Definition item : Type := Z * string.

(** Python's [<] on 2-tuples of an [int] and a [str]: the first components
    decide unless they are equal, then the second components decide. *)
Definition tuple_lt (x y : item) : bool :=
  if x.1 =? y.1 then String.ltb x.2 y.2 else x.1 <? y.1.

(** ** [heapq] on a list used as an array *)

Section Heapq.
Context {A : Type} (lt : A → A → bool).

(** The [while pos > startpos] loop of [heapq._siftdown]; [fuel] bounds
    the number of iterations, [pos] of them are enough. *)
Fixpoint _siftdown_loop (fuel : nat) (heap : list A) (startpos pos : nat)
    (newitem : A) : list A :=
  match fuel with
  | O => <[pos := newitem]> heap
  | S fuel' =>
      if (startpos <? pos)%nat then
        let parentpos := ((pos - 1) / 2)%nat in
        match heap !! parentpos with
        | Some parent =>
            if lt newitem parent
            then _siftdown_loop fuel' (<[pos := parent]> heap) startpos parentpos newitem
            else <[pos := newitem]> heap
        | None => <[pos := newitem]> heap
        end
      else <[pos := newitem]> heap
  end.

Definition _siftdown (heap : list A) (startpos pos : nat) : list A :=
  match heap !! pos with
  | Some newitem => _siftdown_loop pos heap startpos pos newitem
  | None => heap
  end.

(** [heapq.heappush] *)
Definition heappush (heap : list A) (x : A) : list A :=
  let heap := heap ++ [x] in
  _siftdown heap 0 (length heap - 1).

(** The [while childpos < endpos] loop of [heapq._siftup]: the smaller
    child moves up until a leaf is reached; the result is the heap and
    the position of the leaf. *)
Fixpoint _siftup_loop (fuel : nat) (heap : list A) (endpos pos : nat)
    : list A * nat :=
  let childpos := (2 * pos + 1)%nat in
  match fuel with
  | O => (heap, pos)
  | S fuel' =>
      if (childpos <? endpos)%nat then
        let rightpos := (childpos + 1)%nat in
        let childpos :=
          match heap !! childpos, heap !! rightpos with
          | Some l, Some r =>
              if (rightpos <? endpos)%nat && negb (lt l r) then rightpos else childpos
          | _, _ => childpos
          end in
        match heap !! childpos with
        | Some c => _siftup_loop fuel' (<[pos := c]> heap) endpos childpos
        | None => (heap, pos)
        end
      else (heap, pos)
  end.

Definition _siftup (heap : list A) (pos : nat) : list A :=
  let endpos := length heap in
  let startpos := pos in
  match heap !! pos with
  | Some newitem =>
      let '(heap, pos) := _siftup_loop endpos heap endpos pos in
      let heap := <[pos := newitem]> heap in
      _siftdown heap startpos pos
  | None => heap
  end.

(** [heapq.heappushpop]: the returned item is dropped by the caller, only
    the heap is kept. *)
Definition heappushpop (heap : list A) (x : A) : list A :=
  match heap with
  | h0 :: _ => if lt h0 x then _siftup (<[0%nat := x]> heap) 0 else heap
  | [] => heap
  end.

(** [sorted(l, key=key, reverse=True)]: descending by key and stable, so
    elements with equal keys keep the order they have in [l]. *)
Fixpoint sorted_insert (key : A → Z) (x : A) (l : list A) : list A :=
  match l with
  | [] => [x]
  | y :: l' => if key x <? key y then y :: sorted_insert key x l' else x :: l
  end.

Fixpoint sorted_reverse (key : A → Z) (l : list A) : list A :=
  match l with
  | [] => []
  | x :: l' => sorted_insert key x (sorted_reverse key l')
  end.

(** The array is a binary min-heap: no entry is smaller than its parent,
    the entry at [(i - 1) >> 1]. *)
Definition parent (i : nat) : nat := ((i - 1) / 2)%nat.

Definition heap_ordered (h : list A) : Prop :=
  ∀ i x p, (0 < i)%nat → h !! i = Some x → h !! parent i = Some p → lt x p = false.

(** The heap order with one entry out of place: in [ordered_but_up] the
    entry at [pos] may still be smaller than its parent, in
    [ordered_but_down] it may be larger than its children. Both keep the
    children of [pos] ordered against the parent of [pos]. *)
Definition ordered_but_up (h : list A) (pos : nat) : Prop :=
  (∀ i x p, (0 < i)%nat → i ≠ pos →
     h !! i = Some x → h !! parent i = Some p → lt x p = false) ∧
  (∀ c x g, (0 < pos)%nat → parent c = pos →
     h !! c = Some x → h !! parent pos = Some g → lt x g = false).

Definition ordered_but_down (h : list A) (pos : nat) : Prop :=
  (∀ i x p, (0 < i)%nat → parent i ≠ pos →
     h !! i = Some x → h !! parent i = Some p → lt x p = false) ∧
  (∀ c x g, (0 < pos)%nat → parent c = pos →
     h !! c = Some x → h !! parent pos = Some g → lt x g = false).
End Heapq.

(** ** Dictionaries that remember insertion order *)

Definition dict : Type := list (string * Z).

(** [d.get(k, 0)], which is also [d[k]] of a [defaultdict(int)]. *)
Fixpoint dict_get (d : dict) (k : string) : Z :=
  match d with
  | [] => 0
  | (k', v) :: d' => if String.eqb k' k then v else dict_get d' k
  end.

(** [d[k] += n] on a [defaultdict(int)]: an existing key keeps its place, a
    new key goes to the end. *)
Fixpoint dict_add (d : dict) (k : string) (n : Z) : dict :=
  match d with
  | [] => [(k, 0 + n)]
  | (k', v) :: d' =>
      if String.eqb k' k then (k', v + n) :: d' else (k', v) :: dict_add d' k n
  end.

(** ** The directory tree and [os.walk] *)

(** A file entry of a directory listing: its name and what
    [os.path.getsize] does on it, [None] when it raises [OSError]
    ([PermissionError] and [FileNotFoundError] are subclasses). *)
Record FileEntry : Type := mkFile {
  f_name : string;
  f_size : option Z
}.

(** A sub-directory entry: its name, whether it is a symbolic link
    ([os.path.islink], which never raises), whether it is a mount point,
    and whether [os.path.ismount] raises when asked about it. *)
Record DirEntry : Type := mkDirEntry {
  d_name : string;
  d_islink : bool;
  d_ismount : bool;
  d_ismount_raises : bool
}.

#[warnings="-register-all"] Inductive Dir : Type :=
| MkDir (filenames : list FileEntry) (dirnames : list (DirEntry * Dir)).

Definition listing : Type := list (DirEntry * Dir).

(** What one iteration of [for dirpath, dirnames, filenames in os.walk(..)]
    receives. *)
Definition walk_item : Type := string * listing * list FileEntry.

(** [os.walk(top, topdown=True)] with [followlinks] left at [False]: the
    directory is yielded before its sub-directories, the loop body may
    remove entries from [dirnames] in place ([keep] tells which ones it
    leaves), and the walk then descends into the entries that are left and
    are not symbolic links. *)
Fixpoint os_walk (keep : DirEntry → bool) (top : string) (d : Dir)
    : list walk_item :=
  match d with
  | MkDir filenames dirnames =>
      (top, dirnames, filenames) ::
      flat_map (λ '(e, sub),
                  if keep e && negb (d_islink e)
                  then os_walk keep (path_join top (d_name e)) sub
                  else [])
               dirnames
  end.

(** The pruning loop of the scan, [True] when the entry is appended to
    [new_dirs]:
    [try: if islink(full) or ismount(full): continue]
    [except Exception: continue]. *)
Definition prune (e : DirEntry) : bool :=
  if d_islink e then false
  else if d_ismount_raises e then false
  else if d_ismount e then false
  else true.

(** A loop body that leaves [dirnames] alone. *)
Definition no_prune (e : DirEntry) : bool := true.

(** ** The scan *)

Inductive exn : Type := ZeroDivisionError.

(** What a loop body does: fall through to the next iteration, [return],
    or raise. *)
Inductive flow (S R : Type) : Type :=
| Continue (s : S)
| Return (r : R)
| Raise (e : exn).
Arguments Continue {S R} s.
Arguments Return {S R} r.
Arguments Raise {S R} e.

Fixpoint for_each {S R X : Type} (body : S → X → flow S R) (s : S)
    (xs : list X) : flow S R :=
  match xs with
  | [] => Continue s
  | x :: xs' =>
      match body s x with
      | Continue s' => for_each body s' xs'
      | Return r => Return r
      | Raise e => Raise e
      end
  end.

(** A progress event: [processed] and [total_estimate] as handed to the
    callback. *)
Definition event : Type := Z * option Z.

(** A call of the progress callback returns or raises an [Exception]. The
    callback may keep state: its behaviour is a function of the number of
    calls made before and of the arguments. *)
Inductive cb_result : Type := CbReturns | CbRaises.
Definition callback : Type := nat → event → cb_result.

(** The keyword arguments. [cancel_event] is [None] or an event object,
    given by what [is_set()] answers at its n-th poll (counted from 0). *)
Record Args : Type := mkArgs {
  progress_callback : option callback;
  total_estimate : option Z;
  update_every : Z;
  top_n : Z;
  cancel_event : option (nat → bool)
}.

(** The local variables of the scan. [delivered] and [polls] are not in
    the source: they record the calls made to the callback and the number
    of times the cancellation check was reached. *)
Record Locals : Type := mkLocals {
  ext_counts : dict;
  ext_sizes : dict;
  total_files : Z;
  total_size : Z;
  top_heap : list item;
  processed : Z;
  delivered : list event;
  polls : nat
}.

Definition init : Locals :=
  {| ext_counts := []; ext_sizes := []; total_files := 0; total_size := 0;
     top_heap := []; processed := 0; delivered := []; polls := 0 |}.

Definition ext_row : Type := string * Z * Z.

Definition _make_ext_summary (ext_counts ext_sizes : dict) : list ext_row :=
  let items := map (λ kv : string * Z, (kv.1, kv.2, dict_get ext_sizes kv.1)) ext_counts in
  sorted_reverse (λ x : ext_row, x.2) items.

Definition _heap_to_list (h : list item) : list item :=
  sorted_reverse (λ x : item, x.1) h.

(** The returned tuple [(total_files, total_size, ext_summary, top_files)]. *)
Record Stats : Type := mkStats {
  r_total_files : Z;
  r_total_size : Z;
  r_ext_summary : list ext_row;
  r_top_files : list item
}.

Definition stats_of (st : Locals) : Stats :=
  {| r_total_files := total_files st;
     r_total_size := total_size st;
     r_ext_summary := _make_ext_summary (ext_counts st) (ext_sizes st);
     r_top_files := _heap_to_list (top_heap st) |}.

(** Which [return] statement a run ended at: the one after the loops or
    the one under the cancellation check. *)
Inductive terminal : Type := Completed | Cancelled.

(** A finished run: the returned tuple, and beside it the [return] taken
    and the progress events delivered. *)
Record Run : Type := mkRun {
  run_terminal : terminal;
  run_stats : Stats;
  run_delivered : list event
}.

(** [try: progress_callback(processed, total_estimate, elapsed)]
    [except Exception: pass] *)
Definition deliver (args : Args) (cb : callback) (st : Locals) : Locals :=
  let ev : event := (processed st, total_estimate args) in
  let st' :=
    {| ext_counts := ext_counts st; ext_sizes := ext_sizes st;
       total_files := total_files st; total_size := total_size st;
       top_heap := top_heap st; processed := processed st;
       delivered := delivered st ++ [ev]; polls := polls st |} in
  match cb (length (delivered st)) ev with
  | CbReturns => st'
  | CbRaises => st'
  end.

(** [cancel_event and cancel_event.is_set()] *)
Definition cancel_requested (args : Args) (st : Locals) : bool :=
  match cancel_event args with
  | Some is_set => is_set (polls st)
  | None => false
  end.

(** [try: sz = os.path.getsize(fp)]
    [except (PermissionError, FileNotFoundError, OSError): sz = 0] *)
Definition getsize_or_0 (f : FileEntry) : Z :=
  match f_size f with Some n => n | None => 0 end.

(** The statements of the inner loop body from [fp = ...] to
    [processed += 1]. *)
Definition accumulate (args : Args) (dirpath : string) (st : Locals)
    (f : FileEntry) : Locals :=
  let fp := path_join dirpath (f_name f) in
  let sz := getsize_or_0 f in
  let ext := ext_of fp in
  {| ext_counts := dict_add (ext_counts st) ext 1;
     ext_sizes := dict_add (ext_sizes st) ext sz;
     total_files := total_files st + 1;
     total_size := total_size st + sz;
     top_heap :=
       if Z.of_nat (length (top_heap st)) <? top_n args
       then heappush tuple_lt (top_heap st) (sz, fp)
       else heappushpop tuple_lt (top_heap st) (sz, fp);
     processed := processed st + 1;
     delivered := delivered st;
     polls := S (polls st) |}.

(** [if progress_callback and (processed % update_every == 0): ...] *)
Definition report (args : Args) (st : Locals) : flow Locals Run :=
  match progress_callback args with
  | Some cb =>
      if update_every args =? 0 then Raise ZeroDivisionError
      else if processed st `mod` update_every args =? 0
           then Continue (deliver args cb st)
           else Continue st
  | None => Continue st
  end.

(** The body of [for fname in filenames]. *)
Definition visit (args : Args) (dirpath : string) (st : Locals)
    (f : FileEntry) : flow Locals Run :=
  if cancel_requested args st then
    Return {| run_terminal := Cancelled; run_stats := stats_of st;
              run_delivered := delivered st |}
  else report args (accumulate args dirpath st f).

(** The body of [for dirpath, dirnames, filenames in os.walk(...)]; the
    rewriting of [dirnames] is the [prune] handed to [os_walk]. *)
Definition visit_dir (args : Args) (st : Locals) (w : walk_item)
    : flow Locals Run :=
  for_each (visit args w.1.1) st w.2.

(** The statements after the loops. *)
Definition finish (args : Args) (st : Locals) : Run :=
  let st := match progress_callback args with
            | Some cb => deliver args cb st
            | None => st
            end in
  {| run_terminal := Completed; run_stats := stats_of st;
     run_delivered := delivered st |}.

(** A run of [collect_folder_stats_streaming(folder, ...)] on the tree
    [tree] found at [folder]: the exception raised, or the finished run. *)
Definition scan (args : Args) (folder : string) (tree : Dir) : exn + Run :=
  match for_each (visit_dir args) init (os_walk prune folder tree) with
  | Continue st => inr (finish args st)
  | Return r => inr r
  | Raise e => inl e
  end.

(** What the caller of [collect_folder_stats_streaming] gets: the
    exception, or the tuple. *)
Definition collect_folder_stats_streaming (args : Args) (folder : string)
    (tree : Dir) : exn + Stats :=
  match scan args folder tree with
  | inr r => inr (run_stats r)
  | inl e => inl e
  end.

(** [quick_count_files(path)] *)
Definition quick_count_files (path : string) (tree : Dir) : Z :=
  fold_left (λ count (w : walk_item), count + Z.of_nat (length w.2))
            (os_walk no_prune path tree) 0.


(** ** Vocabulary of the statements *)

(** The records the scan is fed, in the order the two loops reach them:
    the directory path and the file entry. *)
Definition enumerate (folder : string) (tree : Dir) : list (string * FileEntry) :=
  flat_map (λ w : walk_item, map (λ f, (w.1.1, f)) w.2) (os_walk prune folder tree).

(** The tuple [(sz, fp)] the scan offers to the heap for a record. *)
Definition observation (r : string * FileEntry) : item :=
  (getsize_or_0 r.2, path_join r.1 (f_name r.2)).

(** The inner loop body on a record. *)
Definition body (args : Args) (st : Locals) (r : string * FileEntry)
    : flow Locals Run :=
  visit args r.1 st r.2.

(** One iteration that neither returns nor raises: the accumulation and
    the periodic progress report. *)
Definition advance (args : Args) (st : Locals) (r : string * FileEntry) : Locals :=
  let st' := accumulate args r.1 st r.2 in
  match progress_callback args with
  | Some cb =>
      if processed st' `mod` update_every args =? 0 then deliver args cb st' else st'
  | None => st'
  end.

Definition advance_all (args : Args) (st : Locals)
    (rs : list (string * FileEntry)) : Locals :=
  fold_left (advance args) rs st.

(** The interval is usable: [processed % update_every] is only evaluated
    when there is a callback, and only raises for [update_every = 0]. *)
Definition interval_ok (args : Args) : Prop :=
  progress_callback args = None ∨ update_every args ≠ 0.

(** What the cancellation check answers at poll [n]. *)
Definition polled (args : Args) (n : nat) : bool :=
  match cancel_event args with
  | Some is_set => is_set n
  | None => false
  end.

(** The cancellation event is not set at any of the first [n] polls. *)
Definition not_cancelled (args : Args) (n : nat) : Prop :=
  ∀ k, (k < n)%nat → polled args k = false.

(** The heap update of one file. *)
Definition heap_step (K : Z) (h : list item) (x : item) : list item :=
  if Z.of_nat (length h) <? K then heappush tuple_lt h x else heappushpop tuple_lt h x.

(** Descending order on sizes, and the [K] largest of a list of sizes. *)
Definition desc (a b : Z) : Prop := b ≤ a.

#[global] Instance desc_dec : RelDecision desc := λ a b, decide (b ≤ a).

Definition k_largest (K : nat) (sizes : list Z) : list Z :=
  take K (merge_sort desc sizes).

(** The heap holds [K] of the largest tuples seen: what was dropped is not
    above anything that is held. *)
Definition top_k_of (K : Z) (seen h : list item) : Prop :=
  heap_ordered tuple_lt h ∧
  length h = (Z.to_nat K `min` length seen)%nat ∧
  ∃ dropped, seen ≡ₚ h ++ dropped ∧
             ∀ d y, d ∈ dropped → y ∈ h → tuple_lt y d = false.

(** The progress values reported inside the loop while [processed] goes
    from [p] to [p + n]. *)
Fixpoint periodic (N : Z) (p : Z) (n : nat) : list Z :=
  match n with
  | O => []
  | S n' => (if (p + 1) `mod` N =? 0 then [p + 1] else []) ++ periodic N (p + 1) n'
  end.

(** The sum of the sizes that could be read. *)
Definition readable_size (rs : list (string * FileEntry)) : Z :=
  foldr Z.add 0 (omap (λ r : string * FileEntry, f_size r.2) rs).

(** Every directory entry below the root satisfies [P]. *)
Fixpoint all_dirs (P : DirEntry → bool) (d : Dir) : bool :=
  match d with
  | MkDir _ dirnames => forallb (λ '(e, sub), P e && all_dirs P sub) dirnames
  end.


Definition check_succeeds (e : DirEntry) : bool := negb (d_ismount_raises e).


Definition never_raises : callback := λ _ _, CbReturns.

(** The orders claimed for the two summaries. *)
Definition ext_order (a b : ext_row) : Prop :=
  b.2 < a.2 ∨ (b.2 = a.2 ∧ String.le a.1.1 b.1.1).

Definition size_desc (a b : item) : Prop := b.1 ≤ a.1.

Definition bytes_desc (a b : ext_row) : Prop := b.2 ≤ a.2.

(** ** Inputs of the examples *)

Definition empty_dir : Dir := MkDir [] [].

Definition one_file : Dir := MkDir [mkFile "a" (Some 5)] [].

Definition tied_files : Dir :=
  MkDir [mkFile "b.txt" (Some 5); mkFile "a.log" (Some 5)] [].

(** The tree of the end-to-end example, with one unreadable file added in
    a sub-directory. *)
Definition sample_tree : Dir :=
  MkDir [mkFile "a.txt" (Some 10); mkFile "b.txt" (Some 20);
         mkFile "c.log" (Some 5); mkFile "d" (Some 1)]
        [(mkDirEntry "sub" false false false, MkDir [mkFile "e.TXT" None] [])].

(** A mount point below the root, and a directory on which
    [os.path.ismount] raises. *)
Definition mounted_tree : Dir :=
  MkDir [mkFile "a" (Some 1)]
        [(mkDirEntry "mnt" false true false, MkDir [mkFile "b" (Some 2)] [])].

Definition unchecked_tree : Dir :=
  MkDir [mkFile "a" (Some 1)]
        [(mkDirEntry "sub" false false true, MkDir [mkFile "b" (Some 2)] [])].

Definition plain_args : Args :=
  {| progress_callback := None; total_estimate := None; update_every := 200;
     top_n := 25; cancel_event := None |}.

Definition top1_args : Args :=
  {| progress_callback := None; total_estimate := None; update_every := 200;
     top_n := 1; cancel_event := None |}.

Definition top2_args : Args :=
  {| progress_callback := None; total_estimate := None; update_every := 200;
     top_n := 2; cancel_event := None |}.

(** The event is already set at the first poll. *)
Definition cancelled_args : Args :=
  {| progress_callback := None; total_estimate := None; update_every := 200;
     top_n := 25; cancel_event := Some (λ _, true) |}.

(** The event is set once two files have been processed. *)
Definition cancel_after_two : Args :=
  {| progress_callback := Some never_raises; total_estimate := Some 5;
     update_every := 2; top_n := 25;
     cancel_event := Some (λ n, (2 <=? n)%nat) |}.

Definition every_file_args : Args :=
  {| progress_callback := Some never_raises; total_estimate := None;
     update_every := 1; top_n := 25; cancel_event := None |}.

Definition every_other_file_args : Args :=
  {| progress_callback := Some never_raises; total_estimate := None;
     update_every := 2; top_n := 25; cancel_event := None |}.

(** The state of a scan with [top_n = 1] that has seen one file of 5
    bytes. *)
Definition holding_a : Locals :=
  accumulate top1_args "d" init (mkFile "a" (Some 5)).

(** ** The other walkers of the file *)

(** [iter_all_files(folder)]: the paths it yields, in order. Its pruning
    loop is the one of the scan. *)
Definition iter_all_files (folder : string) (tree : Dir) : list string :=
  flat_map (λ w : walk_item, map (λ f, path_join w.1.1 (f_name f)) w.2)
           (os_walk prune folder tree).

(** *** [get_cache_summary] *)

(** What escapes when the link or mount check of the filter raises. *)
Inductive check_error : Type := CheckRaised.

(** A loop whose body may raise. *)
Fixpoint try_each {S E X : Type} (body : S → X → E + S) (s : S) (xs : list X)
    : E + S :=
  match xs with
  | [] => inr s
  | x :: xs' =>
      match body s x with
      | inr s' => try_each body s' xs'
      | inl e => inl e
      end
  end.

(** [folders.add(dirpath)] on a set kept as a list without repetition. *)
Definition set_add (x : string) (s : list string) : list string :=
  if bool_decide (x ∈ s) then s else s ++ [x].

(** The local variables of one round of the outer loop. *)
Record CacheLocals : Type := mkCacheLocals {
  c_total_size : Z;
  c_files_count : Z;
  c_folders : list string;
  c_top_heap : list item
}.

Definition cache_init : CacheLocals :=
  {| c_total_size := 0; c_files_count := 0; c_folders := []; c_top_heap := [] |}.

(** The entry [{'size': .., 'files': .., 'folders': .., 'top': ..}]. *)
Record CacheMeta : Type := mkCacheMeta {
  m_size : Z;
  m_files : Z;
  m_folders : Z;
  m_top : list item
}.

(** [not os.path.islink(..) and not os.path.ismount(..)]: the filter of
    the list comprehension, and whether evaluating it over [dirnames]
    raises. There is no [try] around it. *)
Definition cache_keep (e : DirEntry) : bool :=
  negb (d_islink e) && negb (d_ismount e).

Definition cache_filter_raises (dirnames : listing) : bool :=
  existsb (λ es : DirEntry * Dir, negb (d_islink es.1) && d_ismount_raises es.1)
          dirnames.

(** The body of [for f in filenames]: a file whose size cannot be read is
    passed over by [continue]. *)
Definition cache_visit (top_n : Z) (dirpath : string) (st : CacheLocals)
    (f : FileEntry) : CacheLocals :=
  let fp := path_join dirpath (f_name f) in
  match f_size f with
  | None => st
  | Some sz =>
      {| c_total_size := c_total_size st + sz;
         c_files_count := c_files_count st + 1;
         c_folders := c_folders st;
         c_top_heap :=
           if Z.of_nat (length (c_top_heap st)) <? top_n
           then heappush tuple_lt (c_top_heap st) (sz, fp)
           else heappushpop tuple_lt (c_top_heap st) (sz, fp) |}
  end.

(** The body of [for dirpath, dirnames, filenames in os.walk(p, ...)]. *)
Definition cache_visit_dir (top_n : Z) (st : CacheLocals) (w : walk_item)
    : check_error + CacheLocals :=
  if cache_filter_raises w.1.2 then inl CheckRaised
  else
    let st :=
      {| c_total_size := c_total_size st; c_files_count := c_files_count st;
         c_folders := set_add w.1.1 (c_folders st);
         c_top_heap := c_top_heap st |} in
    inr (fold_left (cache_visit top_n w.1.1) w.2 st).

(** [os.walk(p, topdown=True)] at a cache path: [None] when [p] cannot be
    listed as a directory, and the walk then yields nothing. *)
Definition cache_walk (p : string) (t : option Dir) : list walk_item :=
  match t with
  | Some tree => os_walk cache_keep p tree
  | None => []
  end.

(** One round of the outer loop: the entry stored under [p]. *)
Definition cache_summary_of (top_n : Z) (p : string) (t : option Dir)
    : check_error + CacheMeta :=
  match try_each (cache_visit_dir top_n) cache_init (cache_walk p t) with
  | inl e => inl e
  | inr st =>
      inr {| m_size := c_total_size st; m_files := c_files_count st;
             m_folders := Z.of_nat (length (c_folders st));
             m_top := _heap_to_list (c_top_heap st) |}
  end.

(** [result[p] = meta] on a dictionary. *)
Fixpoint meta_set (d : list (string * CacheMeta)) (p : string) (m : CacheMeta)
    : list (string * CacheMeta) :=
  match d with
  | [] => [(p, m)]
  | (p', m') :: d' =>
      if String.eqb p' p then (p', m) :: d' else (p', m') :: meta_set d' p m
  end.

(** The loop [for p in ...] of [get_cache_summary] over the paths [paths],
    [tree_at] giving what is found at a path. *)
Definition cache_summaries (top_n : Z) (tree_at : string → option Dir)
    (paths : list string) : check_error + list (string * CacheMeta) :=
  try_each (λ result p,
              match cache_summary_of top_n p (tree_at p) with
              | inl e => inl e
              | inr m => inr (meta_set result p m)
              end)
           [] paths.

(** *** [get_common_cache_paths] *)

Section CachePaths.
(** The environment: [os.environ.get(name, '')], [os.path.join],
    [os.path.normpath] and [os.path.exists]. *)
Context (environ_get : string → string)
        (join : string → list string → string)
        (normpath : string → string)
        (path_exists : string → bool)
        (tree_at : string → option Dir).

(** [os.path.join(base, *parts) if base else ''] *)
Definition under (base : string) (parts : list string) : string :=
  if Str.is_empty base then EmptyString else join base parts.

Definition candidates : list string :=
  let localapp := environ_get "LOCALAPPDATA" in
  let userprofile := environ_get "USERPROFILE" in
  let windir := environ_get "WINDIR" in
  let appdata := environ_get "APPDATA" in
  [ under userprofile ["AppData"; "Local"; "Temp"];
    under localapp ["Temp"];
    under windir ["Temp"];
    under localapp ["Microsoft"; "Edge"; "User Data"; "Default"; "Cache"];
    under localapp ["Google"; "Chrome"; "User Data"; "Default"; "Cache"];
    under appdata ["Code"; "Cache"];
    under localapp ["npm-cache"];
    under localapp ["Temp"; "node-compile-cache"] ]%string.

(** The body of [for p in candidates]; the state is [(unique, seen)]. *)
Definition dedupe_step (st : list string * list string) (p : string)
    : list string * list string :=
  if Str.is_empty p then st
  else
    let norm := normpath p in
    if bool_decide (norm ∈ st.2) then st
    else if path_exists norm then (st.1 ++ [norm], set_add norm st.2)
    else st.

(** The candidate [p] passes the tests of the loop body other than the one
    on [seen]. *)
Definition accepted (p : string) : Prop :=
  p ≠ EmptyString ∧ path_exists (normpath p) = true.

Definition dedupe (cands : list string) : list string :=
  (fold_left dedupe_step cands ([], [])).1.

Definition get_common_cache_paths : list string := dedupe candidates.

(** [get_cache_summary(top_n)] *)
Definition get_cache_summary (top_n : Z)
    : check_error + list (string * CacheMeta) :=
  cache_summaries top_n tree_at get_common_cache_paths.
End CachePaths.

(** *** The scans started from the two pages *)

(** The keyword arguments of the call made by the worker of
    [dashboard_scan] and by the worker of [folder_visualize]:
    [progress_callback=progress_cb, total_estimate=total_estimate,
    cancel_event=...], the estimate being [quick_count_files(path)];
    [update_every] keeps its default 200, and [top_n] is 25 in both (the
    default in the first, written out in the second). *)
Definition worker_args (progress_cb : callback) (is_set : nat → bool)
    (path : string) (tree : Dir) : Args :=
  {| progress_callback := Some progress_cb;
     total_estimate := Some (quick_count_files path tree);
     update_every := 200; top_n := 25;
     cancel_event := Some is_set |}.

Definition worker_scan (progress_cb : callback) (is_set : nat → bool)
    (path : string) (tree : Dir) : exn + Run :=
  scan (worker_args progress_cb is_set path tree) path tree.

(** ** More vocabulary of the statements *)

(** The extension key of a record, the records of a key, their bytes. *)
Definition key_of (r : string * FileEntry) : string :=
  ext_of (path_join r.1 (f_name r.2)).

Definition records_of (k : string) (rs : list (string * FileEntry))
    : list (string * FileEntry) :=
  filter (λ r, key_of r = k) rs.

Definition bytes_of (rs : list (string * FileEntry)) : Z :=
  foldr Z.add 0 ((λ r : string * FileEntry, getsize_or_0 r.2) <$> rs).

(** The records of a walk, and those a cache walk reaches. *)
Definition flat_records (ws : list walk_item) : list (string * FileEntry) :=
  flat_map (λ w : walk_item, map (λ f, (w.1.1, f)) w.2) ws.

Definition cache_records (p : string) (t : option Dir) : list (string * FileEntry) :=
  flat_records (cache_walk p t).

(** The directory step of the cache walk when the filter does not raise. *)
Definition cache_step (top_n : Z) (st : CacheLocals) (w : walk_item) : CacheLocals :=
  fold_left (cache_visit top_n w.1.1) w.2
    {| c_total_size := c_total_size st; c_files_count := c_files_count st;
       c_folders := set_add w.1.1 (c_folders st); c_top_heap := c_top_heap st |}.

(** The files of a list of records whose size cannot be read. *)
Definition unreadable (rs : list (string * FileEntry)) : list (string * FileEntry) :=
  filter (λ r, f_size r.2 = None) rs.

(** The records whose size can be read. *)
Definition readable (rs : list (string * FileEntry)) : list (string * FileEntry) :=
  filter (λ r, is_Some (f_size r.2)) rs.

(** No file or directory name of the tree contains a separator. *)
Fixpoint plain_names (d : Dir) : bool :=
  match d with
  | MkDir filenames dirnames =>
      forallb (λ f, negb (Str.contains Str.sep (f_name f))) filenames &&
      forallb (λ '(e, sub), negb (Str.contains Str.sep (d_name e)) && plain_names sub)
              dirnames
  end.

(** [s.startswith(p)] *)
Fixpoint has_prefix (p s : string) : bool :=
  match p, s with
  | EmptyString, _ => true
  | String a p', String b s' => Ascii.eqb a b && has_prefix p' s'
  | String _ _, EmptyString => false
  end.

(** A directory entry that is a link, or is neither a mount point nor one
    on which the mount check raises. *)
Definition link_or_plain (e : DirEntry) : bool :=
  d_islink e || (negb (d_ismount e) && negb (d_ismount_raises e)).

(** Two trees that differ at most below entries the scan prunes. *)
#[warnings="-register-all"] Inductive same_where_kept : Dir → Dir → Prop :=
| same_dir (filenames : list FileEntry) (subs subs' : listing) :
    Forall2 (λ a b : DirEntry * Dir,
               a.1 = b.1 ∧ (prune a.1 = true → same_where_kept a.2 b.2))
            subs subs' →
    same_where_kept (MkDir filenames subs) (MkDir filenames subs').

(** ** More inputs of the examples *)

(** [mounted_tree] with other files below the mount point. *)
Definition other_mount : Dir :=
  MkDir [mkFile "a" (Some 1)]
        [(mkDirEntry "mnt" false true false,
          MkDir [mkFile "c" (Some 7); mkFile "d" None] [])].

(** A symbolic link to a directory below the root, on which the mount
    check would raise, beside a plain sub-directory. *)
Definition linked_tree : Dir :=
  MkDir [mkFile "a" (Some 1)]
        [(mkDirEntry "lnk" true false true, MkDir [mkFile "b" (Some 2)] []);
         (mkDirEntry "sub" false false false, MkDir [mkFile "c" (Some 3)] [])].

(** *** [cache_clean_all]: the walk over one cache path *)

(** The paths of the file names a walk lists. *)
Definition walk_paths (ws : list walk_item) : list string :=
  flat_map (λ w : walk_item, map (λ f, path_join w.1.1 (f_name f)) w.2) ws.

(** The two counters shown when the cleaning is over. *)
Record Counts : Type := mkCounts { cleaned : Z; skipped : Z }.

(** [try: send2trash(fp); cleaned += 1] [except Exception: skipped += 1],
    [send2trash] telling whether the call returns. A file sent to the
    recycle bin is no longer in its directory; the second component
    collects the files that stay. *)
Definition trash_file (send2trash : string → bool) (dirpath : string)
    (st : Counts * list FileEntry) (f : FileEntry) : Counts * list FileEntry :=
  if send2trash (path_join dirpath (f_name f))
  then ({| cleaned := cleaned st.1 + 1; skipped := skipped st.1 |}, st.2)
  else ({| cleaned := cleaned st.1; skipped := skipped st.1 + 1 |}, st.2 ++ [f]).

(** [not os.listdir(dp)] *)
Definition listdir_empty (d : Dir) : bool :=
  match d with
  | MkDir [] [] => true
  | _ => false
  end.

(** [try: if not os.listdir(dp): os.rmdir(dp)] [except Exception: pass]:
    whether the entry is gone afterwards, [rmdir] telling whether the call
    returns. *)
Definition removed (rmdir : string → bool) (dirpath : string)
    (es : DirEntry * Dir) : bool :=
  listdir_empty es.2 && rmdir (path_join dirpath (d_name es.1)).

(** What the walk does with the entries of [dirnames] once the body has
    run: a removed entry can no longer be listed and yields nothing, a
    link is not followed, any other entry is walked by [walk]. *)
Definition descend (walk : string → Dir → Counts → Counts * Dir)
    (rmdir : string → bool) (top : string)
    : listing → Counts → Counts * listing :=
  fix go (l : listing) (c : Counts) : Counts * listing :=
    match l with
    | [] => (c, [])
    | (e, sub) :: l' =>
        if removed rmdir top (e, sub) then go l' c
        else if d_islink e then
          let r := go l' c in (r.1, (e, sub) :: r.2)
        else
          let s := walk (path_join top (d_name e)) sub c in
          let r := go l' s.1 in
          (r.1, (e, s.2) :: r.2)
    end.

(** [for dirpath, dirnames, filenames in os.walk(p): ...] of
    [cache_clean_all] on the tree at [p]: the counters, and the tree that
    is left. The directory is listed when the walk reaches it, after the
    body has run on its parent. *)
Fixpoint clean_walk (send2trash rmdir : string → bool) (top : string)
    (d : Dir) (c : Counts) : Counts * Dir :=
  match d with
  | MkDir filenames dirnames =>
      let t := fold_left (trash_file send2trash top) filenames (c, []) in
      let r := descend (clean_walk send2trash rmdir) rmdir top dirnames t.1 in
      (r.1, MkDir t.2 r.2)
  end.

(** The paths of all files an unpruned walk reaches, and those reached
    through one entry of [dirnames]. *)
Definition all_paths (top : string) (d : Dir) : list string :=
  walk_paths (os_walk no_prune top d).

Definition sub_paths (top : string) (es : DirEntry * Dir) : list string :=
  if d_islink es.1 then [] else all_paths (path_join top (d_name es.1)) es.2.

(** A directory emptied by the cleaning, beside one that was empty. *)
Definition cache_tree : Dir :=
  MkDir [mkFile "a.tmp" (Some 4); mkFile "lock" (Some 1)]
        [(mkDirEntry "old" false false false, MkDir [] []);
         (mkDirEntry "logs" false false false, MkDir [mkFile "x.log" (Some 9)] []);
         (mkDirEntry "mnt" false true false, MkDir [mkFile "y" None] [])].


(** * Proofs *)

(** ** The end-to-end examples of the specification *)

Example scan_of_four_files :
  collect_folder_stats_streaming top2_args "root"
    (MkDir [mkFile "a.txt" (Some 10); mkFile "b.txt" (Some 20);
            mkFile "c.log" (Some 5); mkFile "d" (Some 1)] []) =
  inr {| r_total_files := 4; r_total_size := 36;
         r_ext_summary := [(".txt"%string, 2, 30); (".log"%string, 1, 5);
                           ("<no-ext>"%string, 1, 1)];
         r_top_files := [(20, "root/b.txt"%string); (10, "root/a.txt"%string)] |}.
Proof. reflexivity. Qed.

Example scan_of_empty_directory :
  scan every_file_args "root" empty_dir =
  inr {| run_terminal := Completed;
         run_stats := {| r_total_files := 0; r_total_size := 0;
                         r_ext_summary := []; r_top_files := [] |};
         run_delivered := [(0, None)] |}.
Proof. reflexivity. Qed.

Example scan_cancelled_before_first_file :
  scan cancelled_args "root" sample_tree =
  inr {| run_terminal := Cancelled;
         run_stats := {| r_total_files := 0; r_total_size := 0;
                         r_ext_summary := []; r_top_files := [] |};
         run_delivered := [] |}.
Proof. reflexivity. Qed.

(** [processed % update_every] with [update_every = 0] is outside the
    [try]: the scan raises at the first file. *)
Example zero_interval_raises :
  collect_folder_stats_streaming
    {| progress_callback := Some never_raises; total_estimate := None;
       update_every := 0; top_n := 25; cancel_event := None |}
    "root" one_file = inl ZeroDivisionError.
Proof. reflexivity. Qed.

(** The walk of the scan leaves out links, mount points and directories
    whose check raises; the files of the kept directories come in walk
    order. *)
Example enumerate_sample_tree :
  (λ r : string * FileEntry, path_join r.1 (f_name r.2)) <$> enumerate "root" sample_tree =
  ["root/a.txt"; "root/b.txt"; "root/c.log"; "root/d"; "root/sub/e.TXT"]%string.
Proof. reflexivity. Qed.

(** ** Facts about the heap indices *)

Local Close Scope Z_scope.

Lemma parent_spec (i : nat) :
  0 < i → i = 2 * parent i + 1 ∨ i = 2 * parent i + 2.
Proof.
  intros Hi. unfold parent.
  pose proof (Nat.div_mod_eq (i - 1) 2) as E.
  pose proof (Nat.mod_upper_bound (i - 1) 2) as B. lia.
Qed.

Lemma parent_child (p c : nat) : c = 2 * p + 1 ∨ c = 2 * p + 2 → parent c = p.
Proof.
  intros H. unfold parent. symmetry.
  apply (Nat.div_unique _ 2 _ (c - 1 - 2 * p)); lia.
Qed.

Lemma parent_lt (i : nat) : 0 < i → parent i < i.
Proof. intros Hi. destruct (parent_spec i Hi); lia. Qed.

Lemma parent_pos (c : nat) : 0 < parent c → 0 < c.
Proof. destruct c; [cbn; lia | lia]. Qed.

(** Writing [a] at [j] after moving the old entry of [j] to [i] only swaps
    two entries of [<[i:=a]> h]. *)
Lemma insert_move_Permutation {A} (h : list A) (i j : nat) (a b : A) :
  i ≠ j → i < length h → h !! j = Some b →
  <[j:=a]> (<[i:=b]> h) ≡ₚ <[i:=a]> h.
Proof.
  intros Hij Hi Hj.
  rewrite <-(list_insert_insert_eq h i b a).
  apply Permutation_insert_swap.
  - by apply list_lookup_insert_eq.
  - by rewrite list_lookup_insert_ne.
Qed.

Section HeapqFacts.
Context {A : Type} (lt : A → A → bool).
Hypothesis lt_asym : ∀ x y, lt x y = true → lt y x = false.
Hypothesis le_trans : ∀ x y z, lt y x = false → lt z y = false → lt z x = false.

(** The loops leave by their own conditions: any fuel at or above the
    bound the model hands in gives the same result. *)
Lemma _siftdown_loop_fuel (fuel1 fuel2 : nat) (h : list A) (startpos pos : nat) (x : A) :
  pos ≤ fuel1 → pos ≤ fuel2 →
  _siftdown_loop lt fuel1 h startpos pos x = _siftdown_loop lt fuel2 h startpos pos x.
Proof.
  revert fuel2 h pos. induction fuel1 as [|fuel1 IH]; intros fuel2 h pos H1 H2.
  - assert (pos = 0) as -> by lia. destruct fuel2; [done|].
    cbn [_siftdown_loop]. by rewrite (proj2 (Nat.ltb_ge startpos 0)) by lia.
  - destruct fuel2 as [|fuel2].
    + assert (pos = 0) as -> by lia.
      cbn [_siftdown_loop]. by rewrite (proj2 (Nat.ltb_ge startpos 0)) by lia.
    + cbn [_siftdown_loop]. destruct (startpos <? pos) eqn:Hpos; [|done].
      apply Nat.ltb_lt in Hpos. change ((pos - 1) / 2) with (parent pos).
      pose proof (parent_lt pos ltac:(lia)).
      destruct (h !! parent pos); [|done]. destruct (lt x a); [|done].
      apply IH; lia.
Qed.

Lemma _siftup_loop_fuel (fuel1 fuel2 : nat) (h : list A) (endpos pos : nat) :
  endpos - pos ≤ fuel1 → endpos - pos ≤ fuel2 →
  _siftup_loop lt fuel1 h endpos pos = _siftup_loop lt fuel2 h endpos pos.
Proof.
  revert fuel2 h pos. induction fuel1 as [|fuel1 IH]; intros fuel2 h pos H1 H2.
  - destruct fuel2; [done|]. cbn [_siftup_loop].
    by rewrite (proj2 (Nat.ltb_ge (2 * pos + 1) endpos)) by lia.
  - destruct fuel2 as [|fuel2].
    + cbn [_siftup_loop]. by rewrite (proj2 (Nat.ltb_ge (2 * pos + 1) endpos)) by lia.
    + cbn [_siftup_loop]. destruct (2 * pos + 1 <? endpos) eqn:Hc; [|done].
      apply Nat.ltb_lt in Hc.
      destruct (h !! (2 * pos + 1)) as [l|] eqn:Hl;
        destruct (h !! (2 * pos + 1 + 1)) as [r|] eqn:Hr;
        try destruct (2 * pos + 1 + 1 <? endpos) eqn:Hrb;
        try destruct (lt l r);
        cbv iota beta zeta; cbn [andb negb]; cbv iota;
        rewrite ?Hl, ?Hr; try done; apply IH; lia.
Qed.

Lemma lt_irrefl x : lt x x = false.
Proof. destruct (lt x x) eqn:E; [|done]. pose proof (lt_asym _ _ E). congruence. Qed.

Lemma ordered_but_up_root (h : list A) : ordered_but_up lt h 0 → heap_ordered lt h.
Proof. intros [H1 _] i x p Hi. apply H1; lia. Qed.

Lemma ordered_but_up_swap (h : list A) (pos : nat) (x par : A) :
  0 < pos → pos < length h → h !! parent pos = Some par → lt x par = true →
  ordered_but_up lt (<[pos:=x]> h) pos →
  ordered_but_up lt (<[parent pos:=x]> (<[pos:=par]> h)) (parent pos).
Proof.
  intros Hpos Hlen Hpar Hlt [H1 H2].
  pose proof (parent_lt pos Hpos) as Hq.
  assert (Hq0 : <[pos:=x]> h !! parent pos = Some par)
    by (by rewrite list_lookup_insert_ne by lia).
  split.
  - intros i xi pi Hi Hiq Hxi Hpi.
    destruct (decide (i = pos)) as [->|Hip].
    + rewrite list_lookup_insert_ne, list_lookup_insert_eq in Hxi by lia.
      rewrite list_lookup_insert_eq in Hpi by (rewrite length_insert; lia).
      simplify_eq. by apply lt_asym.
    + rewrite !list_lookup_insert_ne in Hxi by lia.
      assert (Hxi0 : <[pos:=x]> h !! i = Some xi)
        by (by rewrite list_lookup_insert_ne by lia).
      destruct (decide (parent i = parent pos)) as [Eq|Nq].
      * rewrite Eq, list_lookup_insert_eq in Hpi by (rewrite length_insert; lia).
        simplify_eq. apply (le_trans _ par).
        -- by apply lt_asym.
        -- apply (H1 i); [done..|]. by rewrite Eq.
      * rewrite list_lookup_insert_ne in Hpi by lia.
        destruct (decide (parent i = pos)) as [Ep|Np].
        -- rewrite Ep, list_lookup_insert_eq in Hpi by lia. simplify_eq.
           by apply (H2 i xi).
        -- rewrite list_lookup_insert_ne in Hpi by lia.
           apply (H1 i); [done..|]. by rewrite list_lookup_insert_ne by lia.
  - intros c xc g Hq' Hc Hxc Hg.
    pose proof (parent_lt _ Hq') as Hqq.
    rewrite !list_lookup_insert_ne in Hg by lia.
    assert (Hg0 : <[pos:=x]> h !! parent (parent pos) = Some g)
      by (by rewrite list_lookup_insert_ne by lia).
    assert (Hparg : lt par g = false) by (apply (H1 (parent pos)); [lia..|done|done]).
    assert (Hc0 : 0 < c) by (apply parent_pos; lia).
    pose proof (parent_lt c Hc0) as Hcc.
    destruct (decide (c = pos)) as [->|Hcp].
    + rewrite list_lookup_insert_ne, list_lookup_insert_eq in Hxc by lia.
      by simplify_eq.
    + rewrite !list_lookup_insert_ne in Hxc by lia.
      apply (le_trans _ par); [done|].
      apply (H1 c); [done..| |].
      * by rewrite list_lookup_insert_ne by lia.
      * by rewrite Hc.
Qed.

Lemma _siftdown_loop_ok (fuel : nat) (h : list A) (pos : nat) (x : A) :
  pos ≤ fuel → pos < length h →
  ordered_but_up lt (<[pos:=x]> h) pos →
  heap_ordered lt (_siftdown_loop lt fuel h 0 pos x) ∧
  _siftdown_loop lt fuel h 0 pos x ≡ₚ <[pos:=x]> h.
Proof.
  revert h pos. induction fuel as [|fuel IH]; intros h pos Hf Hlen Hord.
  - assert (pos = 0) as -> by lia. simpl. split; [|done].
    by apply ordered_but_up_root.
  - cbn [_siftdown_loop]. destruct (0 <? pos) eqn:Hpos.
    + apply Nat.ltb_lt in Hpos.
      pose proof (parent_lt pos Hpos) as Hq.
      change ((pos - 1) / 2) with (parent pos).
      destruct (lookup_lt_is_Some_2 h (parent pos)) as [par Hpar]; [lia|].
      rewrite Hpar. destruct (lt x par) eqn:Hlt.
      * destruct (IH (<[pos:=par]> h) (parent pos)) as [IH1 IH2].
        -- lia.
        -- rewrite length_insert. lia.
        -- by apply ordered_but_up_swap.
        -- split; [done|]. rewrite IH2.
           apply insert_move_Permutation; [lia|done|done].
      * split; [|done]. intros i xi pi Hi Hxi Hpi.
        destruct (decide (i = pos)) as [->|Hne].
        -- rewrite list_lookup_insert_eq in Hxi by lia.
           rewrite list_lookup_insert_ne in Hpi by lia. by simplify_eq.
        -- by apply (proj1 Hord i).
    + apply Nat.ltb_ge in Hpos. assert (pos = 0) as -> by lia.
      split; [|done]. by apply ordered_but_up_root.
Qed.

Lemma _siftdown_ok (h : list A) (pos : nat) :
  pos < length h → ordered_but_up lt h pos →
  heap_ordered lt (_siftdown lt h 0 pos) ∧ _siftdown lt h 0 pos ≡ₚ h.
Proof.
  intros Hlen Hord. unfold _siftdown.
  destruct (lookup_lt_is_Some_2 h pos Hlen) as [x Hx]. rewrite Hx.
  destruct (_siftdown_loop_ok pos h pos x) as [H1 H2];
    [done|done|by rewrite list_insert_id|].
  split; [done|]. by rewrite H2, list_insert_id.
Qed.

Lemma heappush_ok (h : list A) (x : A) :
  heap_ordered lt h →
  heap_ordered lt (heappush lt h x) ∧ heappush lt h x ≡ₚ x :: h.
Proof.
  intros Hh. unfold heappush.
  replace (length (h ++ [x]) - 1) with (length h) by (rewrite length_app; simpl; lia).
  destruct (_siftdown_ok (h ++ [x]) (length h)) as [H1 H2].
  - rewrite length_app. simpl. lia.
  - split.
    + intros i xi pi Hi Hne Hxi Hpi.
      pose proof (parent_lt i Hi). pose proof (lookup_lt_Some _ _ _ Hxi) as Hl.
      rewrite length_app in Hl. simpl in Hl.
      rewrite lookup_app_l in Hxi, Hpi by lia. by apply (Hh i).
    + intros c xc g Hpos Hc Hxc Hg.
      pose proof (lookup_lt_Some _ _ _ Hxc) as Hl.
      rewrite length_app in Hl. simpl in Hl.
      assert (0 < c) by (apply parent_pos; lia).
      pose proof (parent_lt c). lia.
  - split; [done|]. rewrite H2. by rewrite Permutation_app_comm.
Qed.

Lemma ordered_but_down_step (h : list A) (pos c : nat) (cv : A) :
  c = 2 * pos + 1 ∨ c = 2 * pos + 2 → h !! c = Some cv →
  (∀ s sv, parent s = pos → 0 < s → s ≠ c → h !! s = Some sv → lt sv cv = false) →
  ordered_but_down lt h pos →
  ordered_but_down lt (<[pos:=cv]> h) c.
Proof.
  intros Hc Hcv Hsib [H1 H2].
  pose proof (parent_child pos c Hc) as Hpc.
  pose proof (lookup_lt_Some _ _ _ Hcv) as Hclen.
  split.
  - intros i xi pi Hi Hne Hxi Hpi. pose proof (parent_lt i Hi) as Hlt.
    destruct (decide (i = pos)) as [->|Hip].
    + rewrite list_lookup_insert_eq in Hxi by lia.
      rewrite list_lookup_insert_ne in Hpi by lia. injection Hxi as <-.
      by apply (H2 c).
    + rewrite list_lookup_insert_ne in Hxi by lia.
      destruct (decide (parent i = pos)) as [Ep|Np].
      * rewrite Ep, list_lookup_insert_eq in Hpi by lia. injection Hpi as <-.
        destruct (decide (i = c)) as [->|Hic].
        -- rewrite Hcv in Hxi. injection Hxi as <-. apply lt_irrefl.
        -- by apply (Hsib i).
      * rewrite list_lookup_insert_ne in Hpi by lia. by apply (H1 i).
  - intros d xd g Hc0 Hd Hxd Hg.
    assert (0 < d) as Hd0 by (apply parent_pos; lia).
    pose proof (parent_lt d Hd0).
    rewrite Hpc, list_lookup_insert_eq in Hg by lia. injection Hg as <-.
    rewrite list_lookup_insert_ne in Hxd by lia.
    apply (H1 d); [done|lia|done|]. by rewrite Hd.
Qed.

Lemma _siftup_loop_ok (fuel : nat) (h : list A) (pos : nat) :
  length h - pos ≤ fuel → pos < length h → ordered_but_down lt h pos →
  ∃ h' pos',
    _siftup_loop lt fuel h (length h) pos = (h', pos') ∧
    length h' = length h ∧ pos' < length h ∧ length h ≤ 2 * pos' + 1 ∧
    ordered_but_down lt h' pos' ∧
    ∀ x, <[pos':=x]> h' ≡ₚ <[pos:=x]> h.
Proof.
  revert h pos. induction fuel as [|fuel IH]; intros h pos Hf Hlen Hord; [lia|].
  cbn [_siftup_loop]. destruct (2 * pos + 1 <? length h) eqn:Hchild.
  - apply Nat.ltb_lt in Hchild.
    destruct (lookup_lt_is_Some_2 h (2 * pos + 1) Hchild) as [lv Hl]. rewrite Hl.
    assert (Hstep : ∀ c cv,
      c = 2 * pos + 1 ∨ c = 2 * pos + 2 → h !! c = Some cv →
      (∀ s sv, parent s = pos → 0 < s → s ≠ c → h !! s = Some sv → lt sv cv = false) →
      ∃ h' pos',
        _siftup_loop lt fuel (<[pos:=cv]> h) (length h) c = (h', pos') ∧
        length h' = length h ∧ pos' < length h ∧ length h ≤ 2 * pos' + 1 ∧
        ordered_but_down lt h' pos' ∧
        ∀ x, <[pos':=x]> h' ≡ₚ <[pos:=x]> h).
    { intros c cv Hc Hcv Hsib.
      pose proof (lookup_lt_Some _ _ _ Hcv) as Hclen.
      destruct (IH (<[pos:=cv]> h) c) as (h' & pos' & E & L & B & F & O & P).
      - rewrite length_insert. lia.
      - rewrite length_insert. lia.
      - by apply ordered_but_down_step.
      - rewrite length_insert in E, L, B, F. exists h', pos'.
        split_and!; [done..|].
        intros x. etrans; [apply P|].
        apply insert_move_Permutation; [lia|lia|done]. }
    destruct (h !! (2 * pos + 1 + 1)) as [rv|] eqn:Hr.
    + pose proof (lookup_lt_Some _ _ _ Hr) as Hrlen.
      apply Nat.ltb_lt in Hrlen as Hrb. rewrite Hrb. cbn [andb].
      destruct (lt lv rv) eqn:Hlr; cbn [negb].
      * rewrite Hl. apply Hstep; [lia|done|].
        intros s sv Hs Hs0 Hne Hsv. destruct (parent_spec s Hs0) as [E|E].
        -- lia.
        -- replace s with (2 * pos + 1 + 1) in Hsv by lia. simplify_eq.
           by apply lt_asym.
      * rewrite Hr. apply Hstep; [lia|done|].
        intros s sv Hs Hs0 Hne Hsv. destruct (parent_spec s Hs0) as [E|E].
        -- replace s with (2 * pos + 1) in Hsv by lia. by simplify_eq.
        -- lia.
    + rewrite Hl. apply Hstep; [lia|done|].
      intros s sv Hs Hs0 Hne Hsv. destruct (parent_spec s Hs0) as [E|E].
      * lia.
      * replace s with (2 * pos + 1 + 1) in Hsv by lia. congruence.
  - apply Nat.ltb_ge in Hchild. exists h, pos. split_and!; [done..|lia|done|done].
Qed.

Lemma _siftup_ok (h : list A) :
  0 < length h → ordered_but_down lt h 0 →
  heap_ordered lt (_siftup lt h 0) ∧ _siftup lt h 0 ≡ₚ h.
Proof.
  intros Hlen Hord. unfold _siftup.
  destruct (lookup_lt_is_Some_2 h 0 Hlen) as [x Hx]. rewrite Hx.
  destruct (_siftup_loop_ok (length h) h 0) as (h' & pos' & E & L & B & F & [O1 O2] & P);
    [lia|done|done|].
  rewrite E.
  destruct (_siftdown_ok (<[pos':=x]> h') pos') as [H1 H2].
  - rewrite length_insert. lia.
  - assert (Hleaf : ∀ i xi, 0 < i → <[pos':=x]> h' !! i = Some xi → parent i ≠ pos').
    { intros i xi Hi Hxi Hp. apply lookup_lt_Some in Hxi.
      rewrite length_insert in Hxi. destruct (parent_spec i Hi); lia. }
    split.
    + intros i xi pi Hi Hne Hxi Hpi. pose proof (Hleaf i xi Hi Hxi).
      rewrite list_lookup_insert_ne in Hxi, Hpi by lia. by apply (O1 i).
    + intros c xc g Hpos Hc Hxc Hg.
      assert (0 < c) as Hc0 by (apply parent_pos; lia).
      by destruct (Hleaf c xc Hc0 Hxc).
  - split; [done|]. by rewrite H2, P, list_insert_id.
Qed.

Lemma heappushpop_replace (h0 : A) (t : list A) (x : A) :
  heap_ordered lt (h0 :: t) → lt h0 x = true →
  heap_ordered lt (heappushpop lt (h0 :: t) x) ∧
  heappushpop lt (h0 :: t) x ≡ₚ x :: t.
Proof.
  intros Hh Hlt. unfold heappushpop. rewrite Hlt. cbn [insert list_insert].
  apply _siftup_ok; [simpl; lia|]. split.
  - intros i xi pi Hi Hne Hxi Hpi. pose proof (parent_lt i Hi).
    destruct i as [|i]; [lia|]. destruct (parent (S i)) as [|q] eqn:Eq; [done|].
    apply (Hh (S i)); [lia|done|]. by rewrite Eq.
  - lia.
Qed.

Lemma heappushpop_keep (h0 : A) (t : list A) (x : A) :
  lt h0 x = false → heappushpop lt (h0 :: t) x = h0 :: t.
Proof. intros Hlt. unfold heappushpop. by rewrite Hlt. Qed.

(** The root of a heap is a least element. *)
Lemma heap_root_min (h : list A) (m : A) :
  heap_ordered lt h → h !! 0 = Some m →
  ∀ i x, h !! i = Some x → lt x m = false.
Proof.
  intros Hh Hm i. induction i as [i IH] using lt_wf_ind. intros x Hx.
  destruct (decide (i = 0)) as [->|Hi].
  - simplify_eq. apply lt_irrefl.
  - pose proof (parent_lt i ltac:(lia)) as Hp.
    pose proof (lookup_lt_Some _ _ _ Hx).
    destruct (lookup_lt_is_Some_2 h (parent i)) as [p Hpv]; [lia|].
    apply (le_trans _ p); [by apply (IH (parent i))|].
    apply (Hh i); [lia|done|done].
Qed.

End HeapqFacts.

Local Open Scope Z_scope.


(** ** The order on tuples *)

Lemma string_ltb_leb (a b : string) : String.ltb b a = false ↔ String.leb a b = true.
Proof.
  unfold String.ltb, String.leb. rewrite (String.compare_antisym a b).
  destruct (String.compare b a); simpl; split; congruence.
Qed.

Lemma tuple_lt_false (x y : item) :
  tuple_lt y x = false ↔ x.1 < y.1 ∨ (x.1 = y.1 ∧ String.le x.2 y.2).
Proof.
  unfold tuple_lt, String.le. destruct (Z.eqb_spec y.1 x.1) as [E|E].
  - rewrite string_ltb_leb, Is_true_true. split; [intros; right; by split|].
    intros [?|[_ ?]]; [lia|done].
  - rewrite Z.ltb_ge. split; [intros; left; lia|intros [?|[? _]]; lia].
Qed.

Lemma tuple_lt_true (x y : item) :
  tuple_lt x y = true ↔ x.1 < y.1 ∨ (x.1 = y.1 ∧ String.ltb x.2 y.2 = true).
Proof.
  unfold tuple_lt. destruct (Z.eqb_spec x.1 y.1) as [E|E].
  - split; [intros; right; by split|]. intros [?|[_ ?]]; [lia|done].
  - rewrite Z.ltb_lt. split; [intros; by left|intros [?|[? _]]; [done|lia]].
Qed.

Lemma tuple_lt_asym (x y : item) : tuple_lt x y = true → tuple_lt y x = false.
Proof.
  rewrite tuple_lt_true, tuple_lt_false. intros [?|[E H]]; [by left|right].
  split; [done|]. unfold String.le. apply Is_true_true.
  apply string_ltb_leb. unfold String.ltb in *.
  rewrite (String.compare_antisym y.2 x.2).
  by destruct (String.compare x.2 y.2).
Qed.

Lemma tuple_le_trans (x y z : item) :
  tuple_lt y x = false → tuple_lt z y = false → tuple_lt z x = false.
Proof.
  rewrite !tuple_lt_false. intros [?|[E1 H1]] [?|[E2 H2]]; [left; lia..|right].
  split; [lia|]. by etrans.
Qed.

Lemma tuple_le_size (x y : item) : tuple_lt y x = false → x.1 ≤ y.1.
Proof. rewrite tuple_lt_false. lia. Qed.

(** ** [sorted(..., reverse=True)] *)

#[global] Instance desc_trans : Transitive desc.
Proof. unfold desc. intros x y z. lia. Qed.
#[global] Instance desc_antisym : AntiSymm (=) desc.
Proof. unfold desc. intros x y. lia. Qed.
#[global] Instance desc_total : Total desc.
Proof. unfold desc. intros x y. lia. Qed.

Section SortedReverse.
Context {A : Type} (key : A → Z).

Lemma sorted_insert_Permutation (x : A) (l : list A) :
  sorted_insert key x l ≡ₚ x :: l.
Proof.
  induction l as [|y l IH]; simpl; [done|].
  destruct (key x <? key y); [|done]. by rewrite IH, Permutation_swap.
Qed.

Lemma sorted_reverse_Permutation (l : list A) : sorted_reverse key l ≡ₚ l.
Proof.
  induction l as [|x l IH]; simpl; [done|].
  by rewrite sorted_insert_Permutation, IH.
Qed.

Lemma sorted_insert_sorted (x : A) (l : list A) :
  StronglySorted desc (key <$> l) →
  StronglySorted desc (key <$> sorted_insert key x l).
Proof.
  induction l as [|y l IH]; simpl; intros Hs.
  - repeat constructor.
  - apply StronglySorted_cons in Hs as [Hy Hl].
    destruct (Z.ltb_spec (key x) (key y)) as [Hlt|Hge]; simpl.
    + apply StronglySorted_cons. split; [|by apply IH].
      rewrite sorted_insert_Permutation. simpl. constructor; [unfold desc; lia|done].
    + apply StronglySorted_cons. split.
      * constructor; [done|]. eapply Forall_impl; [exact Hy|].
        unfold desc. intros; lia.
      * by apply StronglySorted_cons.
Qed.

Lemma sorted_reverse_sorted (l : list A) :
  StronglySorted desc (key <$> sorted_reverse key l).
Proof.
  induction l as [|x l IH]; simpl; [constructor|]. by apply sorted_insert_sorted.
Qed.

(** Stability: the elements with a given key come out in the order they
    went in. *)
Lemma sorted_insert_stable (v : Z) (x : A) (l : list A) :
  filter (λ a, key a = v) (sorted_insert key x l) = filter (λ a, key a = v) (x :: l).
Proof.
  induction l as [|y l IH]; simpl; [done|].
  destruct (Z.ltb_spec (key x) (key y)) as [Hlt|Hge]; [|done].
  rewrite !filter_cons in *. rewrite IH.
  repeat case_decide; try done; lia.
Qed.

Lemma sorted_reverse_stable (v : Z) (l : list A) :
  filter (λ a, key a = v) (sorted_reverse key l) = filter (λ a, key a = v) l.
Proof.
  induction l as [|x l IH]; simpl; [done|].
  by rewrite sorted_insert_stable, !filter_cons, IH.
Qed.

End SortedReverse.

(** A descending list that holds the top of [all] is a prefix of the
    descending sort of [all]. *)
Lemma sorted_top_is_prefix (K : nat) (top hs ds all : list Z) :
  StronglySorted desc top → top ≡ₚ hs → all ≡ₚ hs ++ ds →
  (∀ d x, d ∈ ds → x ∈ hs → d ≤ x) →
  length hs = (K `min` length all)%nat →
  top = k_largest K all.
Proof.
  intros Hs Hp Hall Hle Hlen. unfold k_largest.
  assert (E : merge_sort desc all = top ++ merge_sort desc ds).
  { apply (Sorted_unique desc).
    - apply Sorted_merge_sort, _.
    - apply StronglySorted_Sorted, StronglySorted_app_2.
      + intros x1 x2 H1 H2. rewrite Hp in H1. rewrite merge_sort_Permutation in H2.
        by apply Hle.
      + done.
      + apply StronglySorted_merge_sort; apply _.
    - by rewrite !merge_sort_Permutation, Hp. }
  rewrite E.
  assert (Ht : length top = length hs) by by rewrite Hp.
  assert (Ha : length all = (length hs + length ds)%nat)
    by (by rewrite Hall, length_app).
  destruct (decide (K ≤ length all)%nat).
  - rewrite take_app_le by lia. rewrite take_ge by lia. done.
  - assert (length ds = 0%nat) as Hd by lia.
    destruct ds; [|done]. simpl. rewrite app_nil_r, take_ge by lia. done.
Qed.

(** ** The heap keeps the largest tuples *)

Lemma top_k_of_nil (K : Z) : top_k_of K [] [].
Proof.
  split_and!.
  - intros i x p _ Hx. by rewrite lookup_nil in Hx.
  - simpl. lia.
  - exists []. split; [done|]. intros d y Hd. by apply elem_of_nil in Hd.
Qed.

Lemma heap_step_top_k (K : Z) (seen h : list item) (x : item) :
  top_k_of K seen h → top_k_of K (seen ++ [x]) (heap_step K h x).
Proof.
  intros (Hord & Hlen & dropped & Hperm & Hdrop). unfold heap_step.
  assert (Hseen : length seen = (length h + length dropped)%nat)
    by (by rewrite Hperm, length_app).
  destruct (Z.ltb_spec (Z.of_nat (length h)) K) as [Hlt|Hge].
  - destruct (heappush_ok tuple_lt tuple_lt_asym tuple_le_trans h x Hord)
      as [Hord' Hperm'].
    assert (length dropped = 0%nat) as Hd by lia.
    destruct dropped; [|done]. rewrite app_nil_r in Hperm.
    split_and!; [done| |].
    + rewrite Hperm', length_app. simpl. lia.
    + exists []. split.
      * by rewrite app_nil_r, Hperm', Hperm, Permutation_app_comm.
      * intros d y Hd'. by apply elem_of_nil in Hd'.
  - destruct h as [|h0 t].
    + simpl in *. split_and!; [done|simpl; lia|].
      exists (dropped ++ [x]). split; [by rewrite Hperm|].
      intros d y _ Hy. by apply elem_of_nil in Hy.
    + assert (Hmin : ∀ y, y ∈ h0 :: t → tuple_lt y h0 = false).
      { intros y [i Hi]%list_elem_of_lookup.
        by apply (heap_root_min tuple_lt tuple_lt_asym tuple_le_trans (h0 :: t) h0 Hord eq_refl i). }
      destruct (tuple_lt h0 x) eqn:Hx.
      * destruct (heappushpop_replace tuple_lt tuple_lt_asym tuple_le_trans h0 t x Hord Hx)
          as [Hord' Hperm'].
        split_and!; [done| |].
        -- rewrite Hperm', length_app. simpl in *. lia.
        -- exists (h0 :: dropped). split.
           ++ rewrite Hperm', Hperm, (Permutation_app_comm _ [x]). simpl.
              f_equiv. apply Permutation_middle.
           ++ intros d y Hd Hy. rewrite Hperm' in Hy.
              apply elem_of_cons in Hd as [->|Hd]; apply elem_of_cons in Hy as [->|Hy].
              ** by apply tuple_lt_asym.
              ** apply Hmin. by right.
              ** apply (tuple_le_trans _ h0); [apply Hdrop; [done|by left]|].
                 by apply tuple_lt_asym.
              ** apply Hdrop; [done|by right].
      * rewrite heappushpop_keep by done.
        split_and!; [done| |].
        -- rewrite length_app. simpl in *. lia.
        -- exists (x :: dropped). split.
           ++ rewrite Hperm, <-app_assoc. f_equiv. apply Permutation_app_comm.
           ++ intros d y Hd Hy. apply elem_of_cons in Hd as [->|Hd].
              ** apply (tuple_le_trans _ h0); [done|by apply Hmin].
              ** by apply Hdrop.
Qed.

Lemma fold_heap_step_top_k (K : Z) (xs seen h : list item) :
  top_k_of K seen h → top_k_of K (seen ++ xs) (fold_left (heap_step K) xs h).
Proof.
  revert seen h. induction xs as [|x xs IH]; intros seen h H; simpl.
  - by rewrite app_nil_r.
  - rewrite (assoc_L (++) seen [x] xs : seen ++ x :: xs = (seen ++ [x]) ++ xs).
    by apply IH, heap_step_top_k.
Qed.

Lemma top_k_of_result (K : Z) (seen h : list item) :
  top_k_of K seen h →
  (_heap_to_list h).*1 = k_largest (Z.to_nat K) (seen.*1) ∧
  length (_heap_to_list h) = (Z.to_nat K `min` length seen)%nat.
Proof.
  intros (Hord & Hlen & dropped & Hperm & Hdrop). unfold _heap_to_list. split.
  - apply (sorted_top_is_prefix _ _ (h.*1) (dropped.*1)).
    + apply sorted_reverse_sorted.
    + by rewrite sorted_reverse_Permutation.
    + by rewrite Hperm, fmap_app.
    + intros d x [d' [-> Hd]]%list_elem_of_fmap [x' [-> Hx]]%list_elem_of_fmap.
      apply tuple_le_size. by apply Hdrop.
    + by rewrite !length_fmap.
  - by rewrite sorted_reverse_Permutation.
Qed.


(** ** The loops *)

Lemma for_each_app {S R X} (body : S → X → flow S R) (s : S) (xs ys : list X) :
  for_each body s (xs ++ ys) =
  match for_each body s xs with
  | Continue s' => for_each body s' ys
  | Return r => Return r
  | Raise e => Raise e
  end.
Proof.
  revert s. induction xs as [|x xs IH]; intros s; simpl; [done|].
  destruct (body s x); [apply IH|done..].
Qed.

Lemma for_each_fmap {S R X Y} (f : X → Y) (body : S → Y → flow S R) (s : S)
    (xs : list X) :
  for_each body s (f <$> xs) = for_each (λ s x, body s (f x)) s xs.
Proof.
  revert s. induction xs as [|x xs IH]; intros s; simpl; [done|].
  destruct (body s (f x)); [apply IH|done..].
Qed.

(** The two nested loops visit the records of the walk one after the
    other. *)
Lemma nested_loops_flat (args : Args) (ws : list walk_item) (st : Locals) :
  for_each (visit_dir args) st ws =
  for_each (body args) st
    (flat_map (λ w : walk_item, map (λ f, (w.1.1, f)) w.2) ws).
Proof.
  revert st. induction ws as [|w ws IH]; intros st; simpl; [done|].
  rewrite for_each_app. unfold visit_dir at 1.
  change (map ?f ?l) with (f <$> l). rewrite for_each_fmap.
  change (λ (s : Locals) (x : FileEntry), body args s (w.1.1, x))
    with (visit args w.1.1).
  destruct (for_each (visit args w.1.1) st w.2); [apply IH|done..].
Qed.

Lemma scan_flat (args : Args) (folder : string) (tree : Dir) :
  scan args folder tree =
  match for_each (body args) init (enumerate folder tree) with
  | Continue st => inr (finish args st)
  | Return r => inr r
  | Raise e => inl e
  end.
Proof. unfold scan, enumerate. by rewrite nested_loops_flat. Qed.

(** ** One iteration *)

Lemma cancel_requested_polled (args : Args) (st : Locals) :
  cancel_requested args st = polled args (polls st).
Proof. done. Qed.

Lemma body_cancelled (args : Args) (st : Locals) (r : string * FileEntry) :
  polled args (polls st) = true →
  body args st r =
  Return {| run_terminal := Cancelled; run_stats := stats_of st;
            run_delivered := delivered st |}.
Proof. intros H. unfold body, visit. by rewrite cancel_requested_polled, H. Qed.

Lemma body_advance (args : Args) (st : Locals) (r : string * FileEntry) :
  interval_ok args → polled args (polls st) = false →
  body args st r = Continue (advance args st r).
Proof.
  intros Hok H. unfold body, visit, report, advance.
  rewrite cancel_requested_polled, H.
  destruct (progress_callback args) as [cb|] eqn:Hcb; [|done].
  destruct Hok as [?|Hn]; [congruence|].
  apply Z.eqb_neq in Hn. rewrite Hn.
  by destruct (processed _ `mod` _ =? 0).
Qed.

Lemma body_raises (args : Args) (st : Locals) (r : string * FileEntry) cb :
  progress_callback args = Some cb → update_every args = 0 →
  polled args (polls st) = false →
  body args st r = Raise ZeroDivisionError.
Proof.
  intros Hcb Hn H. unfold body, visit, report.
  by rewrite cancel_requested_polled, H, Hcb, Hn.
Qed.

(** [deliver] only appends to the record of delivered events, whatever the
    callback does. *)
Lemma deliver_eq (args : Args) (cb : callback) (st : Locals) :
  deliver args cb st =
  {| ext_counts := ext_counts st; ext_sizes := ext_sizes st;
     total_files := total_files st; total_size := total_size st;
     top_heap := top_heap st; processed := processed st;
     delivered := delivered st ++ [(processed st, total_estimate args)];
     polls := polls st |}.
Proof. unfold deliver. by destruct (cb _ _). Qed.

Lemma stats_of_deliver (args : Args) (cb : callback) (st : Locals) :
  stats_of (deliver args cb st) = stats_of st.
Proof. by rewrite deliver_eq. Qed.

Ltac advance_field :=
  intros; unfold advance;
  destruct (progress_callback _); [|done];
  destruct (processed _ `mod` _ =? 0); [by rewrite deliver_eq|done].

Lemma advance_polls args st r : polls (advance args st r) = S (polls st).
Proof. advance_field. Qed.
Lemma advance_processed args st r : processed (advance args st r) = processed st + 1.
Proof. advance_field. Qed.
Lemma advance_total_files args st r :
  total_files (advance args st r) = total_files st + 1.
Proof. advance_field. Qed.
Lemma advance_total_size args st r :
  total_size (advance args st r) = total_size st + getsize_or_0 r.2.
Proof. advance_field. Qed.
Lemma advance_top_heap args st r :
  top_heap (advance args st r) = heap_step (top_n args) (top_heap st) (observation r).
Proof. advance_field. Qed.
Lemma advance_ext_counts args st r :
  ext_counts (advance args st r) =
  dict_add (ext_counts st) (ext_of (path_join r.1 (f_name r.2))) 1.
Proof. advance_field. Qed.
Lemma advance_ext_sizes args st r :
  ext_sizes (advance args st r) =
  dict_add (ext_sizes st) (ext_of (path_join r.1 (f_name r.2))) (getsize_or_0 r.2).
Proof. advance_field. Qed.

Lemma advance_delivered args st r :
  delivered (advance args st r) =
  delivered st ++
  match progress_callback args with
  | Some _ =>
      if (processed st + 1) `mod` update_every args =? 0
      then [(processed st + 1, total_estimate args)] else []
  | None => []
  end.
Proof.
  unfold advance. destruct (progress_callback args); simpl.
  - change (processed (accumulate args r.1 st r.2)) with (processed st + 1).
    destruct (_ `mod` _ =? 0); [by rewrite deliver_eq|by rewrite app_nil_r].
  - by rewrite app_nil_r.
Qed.

(** ** The whole loop *)

Lemma advance_all_cons args st r rs :
  advance_all args st (r :: rs) = advance_all args (advance args st r) rs.
Proof. done. Qed.

Lemma advance_all_app args st rs1 rs2 :
  advance_all args st (rs1 ++ rs2) = advance_all args (advance_all args st rs1) rs2.
Proof. apply fold_left_app. Qed.

Lemma advance_all_polls args rs st :
  polls (advance_all args st rs) = (polls st + length rs)%nat.
Proof.
  revert st. induction rs as [|r rs IH]; intros st; [simpl; lia|].
  rewrite advance_all_cons, IH, advance_polls. simpl. lia.
Qed.

Lemma advance_all_processed args rs st :
  processed (advance_all args st rs) = processed st + Z.of_nat (length rs).
Proof.
  revert st. induction rs as [|r rs IH]; intros st; [simpl; lia|].
  rewrite advance_all_cons, IH, advance_processed. simpl. lia.
Qed.

Lemma advance_all_total_files args rs st :
  total_files (advance_all args st rs) = total_files st + Z.of_nat (length rs).
Proof.
  revert st. induction rs as [|r rs IH]; intros st; [simpl; lia|].
  rewrite advance_all_cons, IH, advance_total_files. simpl. lia.
Qed.

Lemma advance_all_total_size args rs st :
  total_size (advance_all args st rs) =
  total_size st + foldr Z.add 0 ((λ r, getsize_or_0 r.2) <$> rs).
Proof.
  revert st. induction rs as [|r rs IH]; intros st; [simpl; lia|].
  rewrite advance_all_cons, IH, advance_total_size, fmap_cons. cbn [foldr]. lia.
Qed.

Lemma advance_all_top_heap args rs st :
  top_heap (advance_all args st rs) =
  fold_left (heap_step (top_n args)) (observation <$> rs) (top_heap st).
Proof.
  revert st. induction rs as [|r rs IH]; intros st; [done|].
  by rewrite advance_all_cons, IH, advance_top_heap.
Qed.

Lemma advance_all_delivered args rs st :
  delivered (advance_all args st rs) =
  delivered st ++
  match progress_callback args with
  | Some _ => (λ v, (v, total_estimate args)) <$>
              periodic (update_every args) (processed st) (length rs)
  | None => []
  end.
Proof.
  revert st. induction rs as [|r rs IH]; intros st.
  - simpl. destruct (progress_callback args); by rewrite app_nil_r.
  - rewrite advance_all_cons, IH, advance_delivered, advance_processed.
    destruct (progress_callback args); simpl; [|by rewrite !app_nil_r].
    rewrite <-app_assoc. f_equal. rewrite fmap_app.
    by destruct (_ `mod` _ =? 0).
Qed.

Lemma loop_continue (args : Args) (rs : list (string * FileEntry)) (st : Locals) :
  interval_ok args →
  (∀ k, (k < length rs)%nat → polled args (polls st + k) = false) →
  for_each (body args) st rs = Continue (advance_all args st rs).
Proof.
  intros Hok. revert st. induction rs as [|r rs IH]; intros st Hc; [done|].
  cbn [for_each]. rewrite body_advance; [|done|].
  - rewrite advance_all_cons. apply IH. intros k Hk.
    rewrite advance_polls. replace (S (polls st) + k)%nat with (polls st + S k)%nat by lia.
    apply Hc. simpl. lia.
  - rewrite <-(Nat.add_0_r (polls st)). apply Hc. simpl. lia.
Qed.

Lemma loop_cancel (args : Args) (rs : list (string * FileEntry)) (st : Locals) (i : nat) :
  i = 0%nat ∨ interval_ok args →
  (∀ k, (k < i)%nat → polled args (polls st + k) = false) →
  polled args (polls st + i) = true → (i < length rs)%nat →
  for_each (body args) st rs =
  Return {| run_terminal := Cancelled;
            run_stats := stats_of (advance_all args st (take i rs));
            run_delivered := delivered (advance_all args st (take i rs)) |}.
Proof.
  intros [->|Hok] Hbefore Hat Hi.
  { destruct rs as [|r rs]; [simpl in Hi; lia|].
    rewrite Nat.add_0_r in Hat. cbn [for_each]. by rewrite body_cancelled. }
  rewrite <-(take_drop i rs) at 1. rewrite for_each_app.
  rewrite loop_continue; [|done|].
  - destruct (drop i rs) as [|r rest] eqn:Hd.
    + apply (f_equal length) in Hd. rewrite length_drop in Hd. simpl in Hd. lia.
    + cbn [for_each]. rewrite body_cancelled; [done|].
      rewrite advance_all_polls, length_take. by replace (i `min` length rs)%nat with i by lia.
  - intros k Hk. rewrite length_take in Hk. apply Hbefore. lia.
Qed.

(** Every run of the loop either goes through all records or stops at the
    first poll that finds the event set. *)
Lemma loop_outcome (args : Args) (rs : list (string * FileEntry)) (st : Locals) :
  interval_ok args →
  ∃ n, (∀ k, (k < n)%nat → polled args (polls st + k) = false) ∧
       ((n = length rs ∧
         for_each (body args) st rs = Continue (advance_all args st rs)) ∨
        ((n < length rs)%nat ∧ polled args (polls st + n) = true ∧
         for_each (body args) st rs =
         Return {| run_terminal := Cancelled;
                   run_stats := stats_of (advance_all args st (take n rs));
                   run_delivered := delivered (advance_all args st (take n rs)) |})).
Proof.
  intros Hok. revert st. induction rs as [|r rs IH]; intros st.
  - exists 0%nat. split; [lia|]. by left.
  - destruct (polled args (polls st)) eqn:Hp.
    + exists 0%nat. split; [lia|]. right. rewrite Nat.add_0_r.
      split_and!; [simpl; lia|done|]. cbn [for_each]. by rewrite body_cancelled.
    + destruct (IH (advance args st r)) as (n & Hbefore & Hn).
      rewrite advance_polls in Hbefore, Hn.
      exists (S n). split.
      * intros [|k] Hk; [by rewrite Nat.add_0_r|].
        replace (polls st + S k)%nat with (S (polls st) + k)%nat by lia.
        apply Hbefore. lia.
      * cbn [for_each]. rewrite body_advance by done.
        replace (polls st + S n)%nat with (S (polls st) + n)%nat by lia.
        destruct Hn as [[-> E]|(Hlt & Hat & E)].
        -- left. by split.
        -- right. split_and!; [simpl; lia|done|]. by rewrite E.
Qed.


(** ** Strings and paths *)

Lemma append_cons (a : ascii) (s t : string) :
  String a s +:+ t = String a (s +:+ t).
Proof. reflexivity. Qed.

Lemma append_nil (t : string) : EmptyString +:+ t = t.
Proof. reflexivity. Qed.

Lemma length_append (s t : string) :
  String.length (s +:+ t) = (String.length s + String.length t)%nat.
Proof.
  induction s as [|a s IH]; [done|]. rewrite append_cons. simpl. by rewrite IH.
Qed.

Lemma contains_append (c : ascii) (s t : string) :
  Str.contains c (s +:+ t) = Str.contains c s || Str.contains c t.
Proof.
  induction s as [|a s IH]; [done|]. rewrite append_cons. simpl.
  by rewrite IH, orb_assoc.
Qed.

Lemma rfind_absent (c : ascii) (s : string) :
  Str.contains c s = false → Str.rfind c s = None.
Proof.
  induction s as [|a s IH]; simpl; [done|].
  intros [Ha Hs]%orb_false_iff. by rewrite IH, Ha.
Qed.

Lemma rfind_last (c : ascii) (stem ext : string) :
  Str.contains c ext = false →
  Str.rfind c (stem +:+ String c ext) = Some (String.length stem).
Proof.
  intros Hext. induction stem as [|a stem IH].
  - rewrite append_nil. simpl. by rewrite rfind_absent, Ascii.eqb_refl.
  - rewrite append_cons. simpl. by rewrite IH.
Qed.

Lemma drop_append (stem s : string) : Str.drop (String.length stem) (stem +:+ s) = s.
Proof. induction stem as [|a stem IH]; [by destruct s|]. by rewrite append_cons. Qed.

Lemma endswith_split (c : ascii) (s : string) :
  Str.endswith c s = true → ∃ s', s = s' +:+ String c EmptyString.
Proof.
  induction s as [|a s IH]; simpl; [done|]. destruct s as [|b s].
  - intros ->%Ascii.eqb_eq. by exists EmptyString.
  - intros [s' ->]%IH. by exists (String a s').
Qed.

Lemma path_name_plain (name : string) :
  Str.contains Str.sep name = false → path_name name = name.
Proof.
  destruct name as [|a r]; simpl; [done|].
  intros [Ha Hr]%orb_false_iff. by rewrite Hr, Ha.
Qed.

Lemma path_name_after_sep (d name : string) :
  Str.contains Str.sep name = false →
  path_name (d +:+ String Str.sep name) = name.
Proof.
  intros Hn. induction d as [|a d IH].
  - rewrite append_nil. cbn [path_name]. by rewrite Hn, Ascii.eqb_refl.
  - rewrite append_cons. cbn [path_name].
    assert (Str.contains Str.sep (d +:+ String Str.sep name) = true) as ->; [|done].
    rewrite contains_append. cbn [Str.contains].
    by rewrite Ascii.eqb_refl, orb_true_r.
Qed.

(** [Path(os.path.join(dirpath, fname)).name] is [fname]. *)
Lemma path_name_join (dirpath fname : string) :
  Str.contains Str.sep fname = false →
  path_name (path_join dirpath fname) = fname.
Proof.
  intros Hn. unfold path_join.
  assert (Str.startswith Str.sep fname = false) as ->.
  { destruct fname; [done|]. simpl in *. by apply orb_false_iff in Hn as [-> _]. }
  destruct dirpath as [|a d]; [by apply path_name_plain|].
  cbn [Str.is_empty orb].
  destruct (Str.endswith Str.sep (String a d)) eqn:He.
  - apply endswith_split in He as [d' ->].
    replace ((d' +:+ String Str.sep EmptyString) +:+ fname) with (d' +:+ String Str.sep fname).
    + by apply path_name_after_sep.
    + clear. induction d' as [|b d' IH]; [done|]. rewrite !append_cons. by f_equal.
  - by apply path_name_after_sep.
Qed.

Lemma ext_of_join (dirpath fname : string) :
  Str.contains Str.sep fname = false →
  ext_of (path_join dirpath fname) =
  let s := Str.lower (name_suffix fname) in if Str.is_empty s then no_ext else s.
Proof. intros Hn. unfold ext_of, path_suffix. by rewrite path_name_join. Qed.

(** C6. For a file name as [os.walk] lists it (no separator inside): when
    the final '.' of the name has text on both sides, the key is the
    lower-cased text from that '.' on; a name without '.' gets the
    sentinel key; and so does a name that has no suffix because its final
    '.' is its first or its last character. *)
Theorem extension_key_of_file_name (dirpath fname : string) :
  Str.contains Str.sep fname = false →
  (∀ stem ext,
     fname = stem +:+ String Str.dot ext → Str.contains Str.dot ext = false →
     stem ≠ EmptyString → ext ≠ EmptyString →
     ext_of (path_join dirpath fname) = Str.lower (String Str.dot ext)) ∧
  (Str.contains Str.dot fname = false →
     ext_of (path_join dirpath fname) = no_ext) ∧
  (∀ ext,
     fname = String Str.dot ext → Str.contains Str.dot ext = false →
     ext_of (path_join dirpath fname) = no_ext) ∧
  (∀ stem,
     fname = stem +:+ String Str.dot EmptyString →
     ext_of (path_join dirpath fname) = no_ext).
Proof.
  intros Hn. rewrite ext_of_join by done. split_and!.
  - intros stem ext -> Hext Hstem Hne. unfold name_suffix.
    rewrite rfind_last, length_append by done.
    destruct stem as [|a stem]; [done|]. destruct ext as [|b ext]; [done|].
    assert ((0 <? String.length (String a stem))%nat = true) as ->
      by (apply Nat.ltb_lt; simpl; lia).
    assert ((String.length (String a stem) <?
             String.length (String a stem) + String.length (String Str.dot (String b ext)) - 1)%nat
            = true) as -> by (apply Nat.ltb_lt; simpl; lia).
    cbn [andb]. by rewrite drop_append.
  - intros Hd. unfold name_suffix. by rewrite rfind_absent.
  - intros ext -> Hext. unfold name_suffix.
    pose proof (rfind_last Str.dot EmptyString ext Hext) as E.
    rewrite append_nil in E. by rewrite E.
  - intros stem ->. unfold name_suffix.
    rewrite (rfind_last Str.dot stem EmptyString) by done. rewrite length_append.
    assert ((String.length stem <? String.length stem + String.length (String Str.dot EmptyString) - 1)%nat
            = false) as -> by (apply Nat.ltb_ge; simpl; lia).
    by rewrite andb_false_r.
Qed.

Lemma extension_key_of_file_name_witness :
  ext_of (path_join "a.dir/sub" "Report.Final.TXT") = ".txt"%string ∧
  ext_of (path_join "a.dir/sub" "Makefile") = no_ext ∧
  ext_of (path_join "a.dir/sub" ".bashrc") = no_ext ∧
  ext_of (path_join "a.dir/sub" "notes.") = no_ext.
Proof.
  split_and!.
  - apply (proj1 (extension_key_of_file_name "a.dir/sub" "Report.Final.TXT" eq_refl)
             "Report.Final" "TXT"); done.
  - by apply (proj1 (proj2 (extension_key_of_file_name "a.dir/sub" "Makefile" eq_refl))).
  - by apply (proj1 (proj2 (proj2
                (extension_key_of_file_name "a.dir/sub" ".bashrc" eq_refl))) "bashrc").
  - by apply (proj2 (proj2 (proj2
                (extension_key_of_file_name "a.dir/sub" "notes." eq_refl))) "notes").
Defined.


(** ** Whole runs *)

Lemma stats_of_finish (args : Args) (st : Locals) :
  run_stats (finish args st) = stats_of st.
Proof.
  unfold finish. destruct (progress_callback args); [|done].
  cbn [run_stats]. apply stats_of_deliver.
Qed.

Lemma scan_complete (args : Args) (folder : string) (tree : Dir) :
  interval_ok args → not_cancelled args (length (enumerate folder tree)) →
  scan args folder tree =
  inr (finish args (advance_all args init (enumerate folder tree))).
Proof.
  intros Hok Hnc. rewrite scan_flat.
  rewrite (loop_continue args _ init Hok); [done|].
  intros k Hk. by apply Hnc.
Qed.

Lemma scan_cancelled (args : Args) (folder : string) (tree : Dir) (i : nat) :
  i = 0%nat ∨ interval_ok args → not_cancelled args i → polled args i = true →
  (i < length (enumerate folder tree))%nat →
  scan args folder tree =
  inr {| run_terminal := Cancelled;
         run_stats := stats_of (advance_all args init (take i (enumerate folder tree)));
         run_delivered := delivered (advance_all args init (take i (enumerate folder tree))) |}.
Proof.
  intros Hok Hnc Hat Hi. rewrite scan_flat.
  rewrite (loop_cancel args _ init i Hok); [done| |done|done].
  intros k Hk. by apply Hnc.
Qed.

Lemma collect_of_scan (args : Args) (folder : string) (tree : Dir) (r : Run) :
  scan args folder tree = inr r →
  collect_folder_stats_streaming args folder tree = inr (run_stats r).
Proof. intros H. unfold collect_folder_stats_streaming. by rewrite H. Qed.

Lemma readable_size_getsize (rs : list (string * FileEntry)) :
  foldr Z.add 0 ((λ r, getsize_or_0 r.2) <$> rs) = readable_size rs.
Proof.
  unfold readable_size. induction rs as [|[d [n [sz|]]] rs IH]; [done|..];
    rewrite fmap_cons; cbn [foldr omap list_omap]; rewrite IH; done.
Qed.

(** C1. For every K >= 1 and every sequence of file records fed to a scan
    that is not cancelled, the scan returns, and the sizes of the returned
    top-files list are exactly the K largest sizes of the whole input
    (here even in descending order); the list has min(K, number of files)
    entries. *)
Theorem top_files_are_k_largest (args : Args) (folder : string) (tree : Dir) :
  1 ≤ top_n args → interval_ok args →
  not_cancelled args (length (enumerate folder tree)) →
  ∃ s, collect_folder_stats_streaming args folder tree = inr s ∧
       (r_top_files s).*1 =
         k_largest (Z.to_nat (top_n args)) ((observation <$> enumerate folder tree).*1) ∧
       length (r_top_files s) =
         (Z.to_nat (top_n args) `min` length (enumerate folder tree))%nat.
Proof.
  intros _ Hok Hnc. eexists. split.
  { apply collect_of_scan, scan_complete; done. }
  rewrite stats_of_finish. cbn [stats_of r_top_files].
  rewrite advance_all_top_heap. cbn [init top_heap].
  pose proof (fold_heap_step_top_k (top_n args) (observation <$> enumerate folder tree)
                [] [] (top_k_of_nil _)) as H.
  apply top_k_of_result in H as [H1 H2]. simpl in H1, H2.
  split; [done|]. by rewrite H2, length_fmap.
Qed.

Lemma top_files_are_k_largest_witness :
  ∃ s, collect_folder_stats_streaming top2_args "root" sample_tree = inr s ∧
       (r_top_files s).*1 =
         k_largest 2 ((observation <$> enumerate "root" sample_tree).*1) ∧
       length (r_top_files s) = (2 `min` length (enumerate "root" sample_tree))%nat.
Proof.
  apply (top_files_are_k_largest top2_args "root" sample_tree).
  - simpl. lia.
  - by left.
  - intros k _. reflexivity.
Defined.



(** C8. In a scan that is not cancelled every enumerated file is counted,
    also when its size cannot be read: the returned file count is the
    number of enumerated records, and the returned byte total is the sum
    of the sizes that could be read, the others adding 0. *)
Theorem unreadable_files_count_as_zero (args : Args) (folder : string) (tree : Dir) :
  interval_ok args → not_cancelled args (length (enumerate folder tree)) →
  ∃ s, collect_folder_stats_streaming args folder tree = inr s ∧
       r_total_files s = Z.of_nat (length (enumerate folder tree)) ∧
       r_total_size s = readable_size (enumerate folder tree).
Proof.
  intros Hok Hnc. eexists. split.
  { apply collect_of_scan, scan_complete; done. }
  rewrite stats_of_finish. cbn [stats_of r_total_files r_total_size].
  rewrite advance_all_total_files, advance_all_total_size, readable_size_getsize.
  simpl. split; lia.
Qed.

Lemma unreadable_files_count_as_zero_witness :
  ∃ s, collect_folder_stats_streaming plain_args "root" sample_tree = inr s ∧
       r_total_files s = 5 ∧
       r_total_size s = readable_size (enumerate "root" sample_tree).
Proof.
  apply (unreadable_files_count_as_zero plain_args "root" sample_tree).
  - by left.
  - intros k _. reflexivity.
Defined.

(** Every run of the scan with a usable interval ends at one of the two
    [return] statements, with the statistics of the records processed up
    to there. *)
Lemma scan_outcome (args : Args) (folder : string) (tree : Dir) :
  interval_ok args →
  ∃ r n, scan args folder tree = inr r ∧
         run_stats r = stats_of (advance_all args init (take n (enumerate folder tree))) ∧
         match run_terminal r with
         | Completed => n = length (enumerate folder tree)
         | Cancelled => (n < length (enumerate folder tree))%nat
         end.
Proof.
  intros Hok. rewrite scan_flat.
  destruct (loop_outcome args (enumerate folder tree) init Hok)
    as (n & _ & [[-> E]|(Hlt & _ & E)]); rewrite E.
  - eexists _, _. split_and!; [done| |].
    + by rewrite stats_of_finish, firstn_all.
    + by unfold finish.
  - eexists _, n. by split_and!.
Qed.

(** C4, amended. With a usable interval every scan returns, and never
    raises: the returned tuple is the statistics of the records processed
    before the scan ended, all of them when it completed and a strict
    prefix when it was cancelled. The tuple has no component that says
    which of the two happened: a complete run and a cancelled run can
    return the same tuple. *)
Theorem result_is_stats_of_processed_prefix :
  (∀ args folder tree,
     interval_ok args →
     ∃ r n, scan args folder tree = inr r ∧
            collect_folder_stats_streaming args folder tree = inr (run_stats r) ∧
            run_stats r =
              stats_of (advance_all args init (take n (enumerate folder tree))) ∧
            match run_terminal r with
            | Completed => n = length (enumerate folder tree)
            | Cancelled => (n < length (enumerate folder tree))%nat
            end) ∧
  (∃ r1 r2, scan plain_args "d" empty_dir = inr r1 ∧
            scan cancelled_args "d" one_file = inr r2 ∧
            run_terminal r1 = Completed ∧ run_terminal r2 = Cancelled ∧
            run_stats r1 = run_stats r2).
Proof.
  split.
  - intros args folder tree Hok.
    destruct (scan_outcome args folder tree Hok) as (r & n & E & Hs & Ht).
    exists r, n. split_and!; [done|by apply collect_of_scan|done|done].
  - eexists _, _. split_and!; reflexivity.
Qed.

Lemma result_is_stats_of_processed_prefix_witness :
  ∃ r n, scan cancel_after_two "root" sample_tree = inr r ∧
         collect_folder_stats_streaming cancel_after_two "root" sample_tree =
           inr (run_stats r) ∧
         run_stats r =
           stats_of (advance_all cancel_after_two init
                       (take n (enumerate "root" sample_tree))) ∧
         match run_terminal r with
         | Completed => n = length (enumerate "root" sample_tree)
         | Cancelled => (n < length (enumerate "root" sample_tree))%nat
         end.
Proof.
  apply (proj1 result_is_stats_of_processed_prefix cancel_after_two "root" sample_tree).
  right. simpl. lia.
Defined.

(** C4 as stated fails: no function of the returned tuple tells a complete
    run from a cancelled one. An uncancelled scan of an empty directory
    and a scan of one file cancelled at the first poll return the same
    tuple. *)
Lemma no_completion_flag :
  ¬ ∃ flag : Stats → terminal,
      ∀ args folder tree r,
        scan args folder tree = inr r → flag (run_stats r) = run_terminal r.
Proof.
  intros [flag H].
  pose proof (H plain_args "d" empty_dir _ eq_refl) as H1.
  pose proof (H cancelled_args "d" one_file _ eq_refl) as H2.
  cbn in H1, H2. congruence.
Qed.


(** ** Progress events *)

Lemma StronglySorted_weaken {A} (R R' : relation A) (l : list A) :
  (∀ x y, R x y → R' x y) → StronglySorted R l → StronglySorted R' l.
Proof.
  intros H. induction 1 as [|x l Hl IH Hx]; constructor; [done|].
  eapply Forall_impl; [exact Hx|]. apply H.
Qed.

Lemma periodic_bounds (N p : Z) (n : nat) (v : Z) :
  v ∈ periodic N p n → p < v ≤ p + Z.of_nat n.
Proof.
  revert p. induction n as [|n IH]; intros p; cbn [periodic].
  - by intros ?%elem_of_nil.
  - intros [H|H%IH]%elem_of_app; [|lia].
    destruct (_ =? 0); [apply list_elem_of_singleton in H; lia|by apply elem_of_nil in H].
Qed.

Lemma periodic_increasing (N p : Z) (n : nat) : StronglySorted Z.lt (periodic N p n).
Proof.
  revert p. induction n as [|n IH]; intros p; cbn [periodic]; [constructor|].
  destruct (_ =? 0); [|apply IH]. simpl. constructor; [apply IH|].
  apply Forall_forall. intros v Hv%periodic_bounds. lia.
Qed.

Lemma periodic_snoc (N p : Z) (n : nat) :
  periodic N p (S n) =
  periodic N p n ++
  (if (p + Z.of_nat (S n)) `mod` N =? 0 then [p + Z.of_nat (S n)] else []).
Proof.
  revert p. induction n as [|n IH]; intros p.
  - cbn [periodic]. by rewrite app_nil_r.
  - change (periodic N p (S (S n)))
      with ((if (p + 1) `mod` N =? 0 then [p + 1] else []) ++ periodic N (p + 1) (S n)).
    rewrite IH. cbn [periodic]. rewrite <-app_assoc.
    by replace (p + 1 + Z.of_nat (S n)) with (p + Z.of_nat (S (S n))) by lia.
Qed.

Lemma periodic_last (N p : Z) (n : nat) :
  last (periodic N p n) = Some (p + Z.of_nat n) ↔
  (0 < n)%nat ∧ (p + Z.of_nat n) `mod` N = 0.
Proof.
  destruct n as [|n].
  - simpl. split; [done|lia].
  - rewrite periodic_snoc. destruct (Z.eqb_spec ((p + Z.of_nat (S n)) `mod` N) 0) as [E|E].
    + rewrite last_snoc. split; [intros _; split; [lia|done]|done].
    + rewrite app_nil_r. split; [|intros [_ ?]; done].
      intros H. apply last_Some_elem_of, periodic_bounds in H. lia.
Qed.

Lemma run_delivered_finish (args : Args) (cb : callback) (st : Locals) :
  progress_callback args = Some cb →
  run_delivered (finish args st) =
  delivered st ++ [(processed st, total_estimate args)].
Proof. intros H. unfold finish. rewrite H. cbn [run_delivered]. by rewrite deliver_eq. Qed.

(** The values reported by a run that is not cancelled. *)
Lemma delivered_values (args : Args) (cb : callback) (folder : string) (tree : Dir) :
  progress_callback args = Some cb → update_every args ≠ 0 →
  not_cancelled args (length (enumerate folder tree)) →
  ∃ r, scan args folder tree = inr r ∧
       run_terminal r = Completed ∧
       r_total_files (run_stats r) = Z.of_nat (length (enumerate folder tree)) ∧
       (run_delivered r).*1 =
         periodic (update_every args) 0 (length (enumerate folder tree)) ++
         [Z.of_nat (length (enumerate folder tree))].
Proof.
  intros Hcb HN Hnc. eexists. split; [apply scan_complete; [by right|done]|].
  split_and!.
  - by unfold finish.
  - rewrite stats_of_finish. cbn [stats_of r_total_files].
    by rewrite advance_all_total_files.
  - rewrite (run_delivered_finish _ cb) by done.
    rewrite advance_all_delivered, advance_all_processed, Hcb. cbn [init delivered processed].
    rewrite app_nil_l, fmap_app, <-list_fmap_compose. f_equal.
    rewrite <-(list_fmap_id (periodic _ _ _)) at 2. by apply list_fmap_ext.
Qed.

(** C5, amended. In a scan with a callback that is not cancelled, with
    interval N >= 1, the delivered [processed] values are non-decreasing;
    those before the final event are strictly increasing; the final
    event carries the total number of files processed, which is also the
    returned file count; and the final event repeats the value of the
    event before it exactly when the total is a positive multiple of N. *)
Theorem progress_values_reach_total (args : Args) (cb : callback)
    (folder : string) (tree : Dir) :
  progress_callback args = Some cb → 1 ≤ update_every args →
  not_cancelled args (length (enumerate folder tree)) →
  ∃ r inner,
    let total := Z.of_nat (length (enumerate folder tree)) in
    scan args folder tree = inr r ∧
    r_total_files (run_stats r) = total ∧
    (run_delivered r).*1 = inner ++ [total] ∧
    StronglySorted Z.le ((run_delivered r).*1) ∧
    StronglySorted Z.lt inner ∧
    (last inner = Some total ↔ 0 < total ∧ total `mod` update_every args = 0).
Proof.
  intros Hcb HN Hnc.
  destruct (delivered_values args cb folder tree Hcb ltac:(lia) Hnc)
    as (r & E & _ & Ht & Hd).
  exists r, (periodic (update_every args) 0 (length (enumerate folder tree))).
  cbn zeta. split_and!; [done..| | |].
  - rewrite Hd. apply StronglySorted_app_2.
    + intros x1 x2 H1%periodic_bounds ->%list_elem_of_singleton. lia.
    + apply (StronglySorted_weaken Z.lt); [apply Z.lt_le_incl|apply periodic_increasing].
    + repeat constructor.
  - apply periodic_increasing.
  - rewrite <-(Z.add_0_l (Z.of_nat (length (enumerate folder tree)))) at 1 3.
    rewrite periodic_last. rewrite !Z.add_0_l. split; intros [? ?]; split; (done || lia).
Qed.

Lemma progress_values_reach_total_witness :
  ∃ r inner,
    scan every_other_file_args "d"
         (MkDir [mkFile "a" (Some 1); mkFile "b" None; mkFile "c" (Some 3)] []) = inr r ∧
    r_total_files (run_stats r) = 3 ∧
    (run_delivered r).*1 = inner ++ [3] ∧
    StronglySorted Z.le ((run_delivered r).*1) ∧
    StronglySorted Z.lt inner ∧
    (last inner = Some 3 ↔ 0 < 3 ∧ 3 `mod` 2 = 0).
Proof.
  apply (progress_values_reach_total every_other_file_args never_raises "d"
           (MkDir [mkFile "a" (Some 1); mkFile "b" None; mkFile "c" (Some 3)] [])).
  - reflexivity.
  - simpl. lia.
  - intros k _. reflexivity.
Defined.

(** C5 as stated fails: with N = 1 and one file the callback receives the
    values 1 and 1, which is not strictly increasing. *)
Lemma final_event_repeats_last_value :
  ∃ r, scan every_file_args "d" one_file = inr r ∧
       (run_delivered r).*1 = [1; 1] ∧
       ¬ StronglySorted Z.lt ((run_delivered r).*1).
Proof.
  eexists. split; [reflexivity|]. split; [reflexivity|].
  cbn. intros H. apply StronglySorted_cons in H as [H _].
  apply Forall_cons in H as [H _]. lia.
Qed.

(** ** The progress callback *)




Lemma scan_returns (args : Args) (folder : string) (tree : Dir) :
  interval_ok args → ∃ r, scan args folder tree = inr r.
Proof.
  intros Hok. destruct (scan_outcome args folder tree Hok) as (r & _ & E & _). eauto.
Qed.



(** ** Replacement in the full heap *)

(** Every state the loop reaches has its heap in heap order. *)
Lemma reachable_heap_ordered (args : Args) (rs : list (string * FileEntry)) :
  heap_ordered tuple_lt (top_heap (advance_all args init rs)).
Proof.
  rewrite advance_all_top_heap.
  by destruct (fold_heap_step_top_k (top_n args) (observation <$> rs) [] []
                 (top_k_of_nil _)) as [H _].
Qed.

(** C2, amended. Let the heap hold [top_n] tuples and let [m] be its root.
    [m] is the smallest held tuple, and of smallest size. A new file whose
    size is below that of [m], or equal with a path not above the path of
    [m], leaves the heap as it is. A new file whose size is above that of
    [m], or equal with a path above the path of [m], takes the place of
    [m]: the held tuples become the old ones with [m] exchanged for the
    new tuple. *)
Theorem smallest_replaced_by_greater_tuple (args : Args) (dirpath : string)
    (st : Locals) (f : FileEntry) (m : item) :
  heap_ordered tuple_lt (top_heap st) →
  Z.of_nat (length (top_heap st)) = top_n args →
  top_heap st !! 0%nat = Some m →
  let sz := getsize_or_0 f in
  let fp := path_join dirpath (f_name f) in
  let h' := top_heap (accumulate args dirpath st f) in
  (∀ y, y ∈ top_heap st → tuple_lt y m = false ∧ m.1 ≤ y.1) ∧
  (sz < m.1 ∨ (sz = m.1 ∧ String.le fp m.2) → h' = top_heap st) ∧
  (m.1 < sz ∨ (sz = m.1 ∧ String.ltb m.2 fp = true) →
     (m :: h' ≡ₚ (sz, fp) :: top_heap st) ∧ heap_ordered tuple_lt h').
Proof.
  intros Hord Hlen Hm sz fp h'.
  assert (Hh : h' = heappushpop tuple_lt (top_heap st) (sz, fp)).
  { subst h'. cbn [accumulate top_heap].
    assert ((Z.of_nat (length (top_heap st)) <? top_n args) = false) as ->
      by (apply Z.ltb_ge; lia). done. }
  destruct (top_heap st) as [|h0 t] eqn:Hheap; [done|]. injection Hm as ->.
  split_and!.
  - intros y [i Hi]%list_elem_of_lookup.
    pose proof (heap_root_min tuple_lt tuple_lt_asym tuple_le_trans
                  (m :: t) m Hord eq_refl i y Hi) as H.
    split; [done|by apply tuple_le_size].
  - intros H. rewrite Hh. apply heappushpop_keep.
    apply tuple_lt_false. exact H.
  - intros H. rewrite Hh.
    assert (Hlt : tuple_lt m (sz, fp) = true).
    { apply tuple_lt_true. simpl. destruct H as [?|[-> ?]]; [by left|by right]. }
    destruct (heappushpop_replace tuple_lt tuple_lt_asym tuple_le_trans m t (sz, fp)
                Hord Hlt) as [H1 H2].
    split; [|done]. by rewrite H2, Permutation_swap.
Qed.

Lemma smallest_replaced_by_greater_tuple_witness :
  let h' := top_heap (accumulate top1_args "d" holding_a (mkFile "b" (Some 7))) in
  (∀ y, y ∈ top_heap holding_a → tuple_lt y (5, "d/a"%string) = false ∧ 5 ≤ y.1) ∧
  (7 < 5 ∨ (7 = 5 ∧ String.le "d/b" "d/a") → h' = top_heap holding_a) ∧
  (5 < 7 ∨ (7 = 5 ∧ String.ltb "d/a" "d/b" = true) →
     ((5, "d/a"%string) :: h' ≡ₚ (7, "d/b"%string) :: top_heap holding_a) ∧
     heap_ordered tuple_lt h').
Proof.
  apply (smallest_replaced_by_greater_tuple top1_args "d" holding_a
           (mkFile "b" (Some 7)) (5, "d/a"%string)).
  - change (top_heap holding_a) with [(5, "d/a"%string)].
    intros i x p Hi Hx. destruct i as [|i]; [lia|]. by destruct i.
  - reflexivity.
  - reflexivity.
Defined.

(** C2 as stated fails: with [top_n = 1] and [(5, "a")] held, a file "b" of
    the same size 5 replaces it. *)
Lemma equal_size_replaces_smallest :
  top_heap holding_a = [(5, "d/a"%string)] ∧
  Z.of_nat (length (top_heap holding_a)) = top_n top1_args ∧
  getsize_or_0 (mkFile "b" (Some 5)) = 5 ∧
  top_heap (accumulate top1_args "d" holding_a (mkFile "b" (Some 5))) = [(5, "d/b"%string)] ∧
  ¬ top_heap (accumulate top1_args "d" holding_a (mkFile "b" (Some 5))) ≡ₚ top_heap holding_a.
Proof.
  split_and!; [reflexivity..|].
  change ([(5, "d/b"%string)] ≢ₚ [(5, "d/a"%string)]).
  intros H%Permutation_singleton_r. discriminate.
Qed.

(** ** The order of the summaries *)

Lemma sorted_reverse_by_key {A} (key : A → Z) (l : list A) :
  StronglySorted (λ a b, key b ≤ key a) (sorted_reverse key l).
Proof.
  pose proof (sorted_reverse_sorted key l) as H.
  induction (sorted_reverse key l) as [|x s IH]; [constructor|].
  rewrite fmap_cons in H. apply StronglySorted_cons in H as [Hx Hs].
  constructor; [by apply IH|].
  rewrite Forall_fmap in Hx. eapply Forall_impl; [exact Hx|]. done.
Qed.

(** [d[k] += n] keeps the keys that are there where they are and puts a
    new key last: [ext_counts] lists the keys in the order in which they
    were first seen. *)
Lemma dict_add_keys (d : dict) (k : string) (n : Z) :
  (dict_add d k n).*1 = if bool_decide (k ∈ d.*1) then d.*1 else d.*1 ++ [k].
Proof.
  induction d as [|[k' v] d IH]; [done|]. cbn [dict_add].
  destruct (String.eqb_spec k' k) as [->|Hne].
  - cbn [fmap list_fmap fst]. by rewrite bool_decide_eq_true_2 by left.
  - cbn [fmap list_fmap fst] in *. rewrite IH.
    destruct (bool_decide (k ∈ d.*1)) eqn:E.
    + apply bool_decide_eq_true in E. by rewrite bool_decide_eq_true_2 by (by right).
    + apply bool_decide_eq_false in E.
      rewrite bool_decide_eq_false_2; [done|].
      intros [?|?]%elem_of_cons; [congruence|done].
Qed.

(** C7, amended. For every state the extension summary is in descending
    order of total bytes and rows with equal total bytes keep the order
    they have in [ext_counts]; the top-files list is in descending order
    of size and tuples of equal size keep the order they have in the heap
    array. *)
Theorem summaries_are_stable_sorts (st : Locals) :
  let rows := (λ kv : string * Z, (kv.1, kv.2, dict_get (ext_sizes st) kv.1))
                <$> ext_counts st in
  let summary := _make_ext_summary (ext_counts st) (ext_sizes st) in
  let top := _heap_to_list (top_heap st) in
  StronglySorted bytes_desc summary ∧
  (∀ v, filter (λ x : ext_row, x.2 = v) summary = filter (λ x : ext_row, x.2 = v) rows) ∧
  StronglySorted size_desc top ∧
  (∀ v, filter (λ x : item, x.1 = v) top = filter (λ x : item, x.1 = v) (top_heap st)).
Proof.
  cbn zeta. split_and!.
  - apply (sorted_reverse_by_key (λ x : ext_row, x.2)).
  - intros v. apply (sorted_reverse_stable (λ x : ext_row, x.2)).
  - apply (sorted_reverse_by_key (λ x : item, x.1)).
  - intros v. apply (sorted_reverse_stable (λ x : item, x.1)).
Qed.

(** C7 as stated fails: two files of 5 bytes, "b.txt" seen before "a.log".
    The summary lists ".txt" before ".log", which is not the lexical order
    of the keys, and the top-files list has "a.log" before "b.txt", which
    is not the order of insertion. *)
Lemma ties_keep_dictionary_and_heap_order :
  ∃ s, collect_folder_stats_streaming plain_args "d" tied_files = inr s ∧
       r_ext_summary s = [(".txt"%string, 1, 5); (".log"%string, 1, 5)] ∧
       ¬ Sorted ext_order (r_ext_summary s) ∧
       observation <$> enumerate "d" tied_files =
         [(5, "d/b.txt"%string); (5, "d/a.log"%string)] ∧
       r_top_files s = [(5, "d/a.log"%string); (5, "d/b.txt"%string)].
Proof.
  exists {| r_total_files := 2; r_total_size := 10;
            r_ext_summary := [(".txt"%string, 1, 5); (".log"%string, 1, 5)];
            r_top_files := [(5, "d/a.log"%string); (5, "d/b.txt"%string)] |}.
  split_and!; [reflexivity..| |reflexivity|reflexivity].
  cbn [r_ext_summary]. intros H. apply Sorted_inv in H as [_ H]. apply HdRel_inv in H.
  destruct H as [H|[_ H]]; [simpl in H; lia|]. exact H.
Qed.


(** ** The two walks *)

Lemma Dir_nested_ind (P : Dir → Prop) :
  (∀ filenames dirnames,
     Forall (λ es : DirEntry * Dir, P es.2) dirnames → P (MkDir filenames dirnames)) →
  ∀ d, P d.
Proof.
  intros H. fix IH 1. intros [filenames dirnames]. apply H.
  induction dirnames as [|[e sub] dirnames IHd]; constructor; [apply IH|apply IHd].
Qed.

(** The number of file names a walk lists. *)
Lemma quick_count_files_length (path : string) (tree : Dir) :
  quick_count_files path tree =
  Z.of_nat (length (flat_map (λ w : walk_item, w.2) (os_walk no_prune path tree))).
Proof.
  unfold quick_count_files.
  assert (G : ∀ ws c,
    fold_left (λ count (w : walk_item), count + Z.of_nat (length w.2)) ws c =
    c + Z.of_nat (length (flat_map (λ w : walk_item, w.2) ws))).
  { induction ws as [|w ws IH]; intros c; simpl; [lia|].
    rewrite IH, length_app. lia. }
  rewrite G. lia.
Qed.

Lemma enumerate_length (folder : string) (tree : Dir) :
  length (enumerate folder tree) =
  length (flat_map (λ w : walk_item, w.2) (os_walk prune folder tree)).
Proof.
  unfold enumerate. induction (os_walk prune folder tree) as [|w ws IH]; simpl; [done|].
  by rewrite !length_app, length_map, IH.
Qed.


(** The pruned walk lists no more file names than the plain one. *)
Lemma os_walk_prune_le (tree : Dir) (top : string) :
  (length (flat_map (λ w : walk_item, w.2) (os_walk prune top tree)) ≤
   length (flat_map (λ w : walk_item, w.2) (os_walk no_prune top tree)))%nat.
Proof.
  revert top. induction tree as [filenames dirnames IH] using Dir_nested_ind.
  intros top. cbn [os_walk flat_map]. rewrite !length_app.
  apply Nat.add_le_mono_l.
  induction dirnames as [|[e sub] dirnames IHd]; [done|].
  apply Forall_cons in IH as [IHsub IHrest].
  cbn [flat_map]. rewrite !flat_map_app, !length_app.
  apply Nat.add_le_mono; [|by apply IHd].
  unfold no_prune. destruct (prune e), (d_islink e); cbn; try lia.
  apply IHsub.
Qed.




(** * Further properties of the code *)

(** ** The cache summary on the example trees *)

Example cache_round_of_sample_tree :
  cache_summary_of 2 "root" (Some sample_tree) =
  inr {| m_size := 36; m_files := 4; m_folders := 2;
         m_top := [(20, "root/b.txt"%string); (10, "root/a.txt"%string)] |}.
Proof. reflexivity. Qed.

Example cache_round_leaves_mount_point_out :
  cache_summary_of 10 "root" (Some mounted_tree) =
  inr {| m_size := 1; m_files := 1; m_folders := 1;
         m_top := [(1, "root/a"%string)] |}.
Proof. reflexivity. Qed.

Example cache_round_raises_where_scan_returns :
  cache_summary_of 10 "d" (Some unchecked_tree) = inl CheckRaised ∧
  ∃ s, collect_folder_stats_streaming plain_args "d" unchecked_tree = inr s.
Proof. split; [reflexivity|]. eexists. reflexivity. Qed.

Example cache_round_of_unlistable_path :
  cache_summary_of 10 "f" None =
  inr {| m_size := 0; m_files := 0; m_folders := 0; m_top := [] |}.
Proof. reflexivity. Qed.

Example cache_paths_are_deduplicated :
  get_common_cache_paths
    (λ name, if String.eqb name "LOCALAPPDATA" then "L"%string else EmptyString)
    (λ base parts, fold_left path_join parts base)
    (λ p, if has_prefix "L/Temp" p then "L/Temp"%string else p)
    (λ p, negb (String.eqb p "L/npm-cache")) =
  ["L/Temp"; "L/Microsoft/Edge/User Data/Default/Cache";
   "L/Google/Chrome/User Data/Default/Cache"]%string.
Proof. reflexivity. Qed.

(** One file in use, one directory that was empty and one that the
    cleaning empties; the mount point is walked. *)
Example cleaning_keeps_the_directory_it_empties :
  clean_walk (λ p, negb (String.eqb p "c/lock")) (λ _, true) "c" cache_tree
    (mkCounts 0 0) =
  ({| cleaned := 3; skipped := 1 |},
   MkDir [mkFile "lock" (Some 1)]
         [(mkDirEntry "logs" false false false, MkDir [] []);
          (mkDirEntry "mnt" false true false, MkDir [] [])]).
Proof. reflexivity. Qed.

(** ** The shape of an extension key *)

Lemma lower_char_idem (c : ascii) : Str.lower_char (Str.lower_char c) = Str.lower_char c.
Proof. destruct c as [[] [] [] [] [] [] [] []]; reflexivity. Qed.

Lemma lower_idem (s : string) : Str.lower (Str.lower s) = Str.lower s.
Proof. induction s as [|a s IH]; simpl; [done|]. by rewrite lower_char_idem, IH. Qed.

Lemma lower_char_dot (c : ascii) : Ascii.eqb (Str.lower_char c) Str.dot = Ascii.eqb c Str.dot.
Proof. destruct c as [[] [] [] [] [] [] [] []]; reflexivity. Qed.

Lemma contains_dot_lower (s : string) :
  Str.contains Str.dot (Str.lower s) = Str.contains Str.dot s.
Proof. induction s as [|a s IH]; simpl; [done|]. by rewrite lower_char_dot, IH. Qed.

Lemma rfind_found (c : ascii) (s : string) (i : nat) :
  Str.rfind c s = Some i →
  ∃ rest, Str.drop i s = String c rest ∧ Str.contains c rest = false ∧
          String.length s = (i + 1 + String.length rest)%nat.
Proof.
  revert i. induction s as [|a s IH]; intros i; simpl; [done|].
  destruct (Str.rfind c s) as [j|] eqn:Hj.
  - intros [= <-]. destruct (IH j eq_refl) as (rest & H1 & H2 & H3).
    exists rest. simpl. split_and!; [done|done|lia].
  - destruct (Ascii.eqb_spec a c) as [->|]; [|done]. intros [= <-].
    exists s. simpl. split_and!; [done| |lia].
    clear IH. induction s as [|b s IH]; simpl in *; [done|].
    destruct (Str.rfind c s); [done|]. destruct (Ascii.eqb b c); [done|].
    by rewrite IH.
Qed.

Lemma name_suffix_shape (name : string) :
  name_suffix name = EmptyString ∨
  ∃ rest, name_suffix name = String Str.dot rest ∧ rest ≠ EmptyString ∧
          Str.contains Str.dot rest = false.
Proof.
  unfold name_suffix. destruct (Str.rfind Str.dot name) as [i|] eqn:Hi; [|by left].
  destruct (0 <? i)%nat eqn:H0; [|by left]. cbn [andb].
  destruct (i <? String.length name - 1)%nat eqn:H1; [|by left].
  apply Nat.ltb_lt in H1. right.
  destruct (rfind_found _ _ _ Hi) as (rest & E & Hc & Hl).
  exists rest. split_and!; [done| |done].
  intros ->. simpl in Hl. lia.
Qed.

(** X1. The extension key of any path is [<no-ext>] when the suffix that
    [pathlib] finds is empty, and otherwise that suffix in lower case: a
    dot followed by a non-empty text that holds no further dot and no
    upper-case letter. So no key is empty, and every key other than
    [<no-ext>] begins with its dot. *)
Theorem extension_key_shape (fp : string) :
  (path_suffix fp = EmptyString ∧ ext_of fp = no_ext) ∨
  (∃ rest, ext_of fp = String Str.dot rest ∧ rest ≠ EmptyString ∧
           Str.contains Str.dot rest = false ∧ Str.lower rest = rest ∧
           ext_of fp = Str.lower (path_suffix fp)).
Proof.
  unfold ext_of, path_suffix.
  destruct (name_suffix_shape (path_name fp)) as [->|(rest & -> & Hne & Hc)].
  - by left.
  - right. exists (Str.lower rest). simpl. split_and!.
    + done.
    + by destruct rest.
    + by rewrite contains_dot_lower.
    + apply lower_idem.
    + done.
Qed.

(** ** The two dictionaries of the scan *)

Lemma dict_get_add (d : dict) (k k' : string) (n : Z) :
  dict_get (dict_add d k n) k' =
  if bool_decide (k = k') then dict_get d k' + n else dict_get d k'.
Proof.
  induction d as [|[k0 v] d IH]; cbn [dict_add dict_get].
  - destruct (String.eqb_spec k k'); case_bool_decide; (done || lia).
  - destruct (String.eqb_spec k0 k) as [->|Hne]; cbn [dict_get].
    + destruct (String.eqb_spec k k'); case_bool_decide; done.
    + destruct (String.eqb_spec k0 k'); [|done].
      subst. by rewrite bool_decide_eq_false_2 by congruence.
Qed.

Lemma dict_add_NoDup (d : dict) (k : string) (n : Z) :
  NoDup d.*1 → NoDup (dict_add d k n).*1.
Proof.
  intros H. rewrite dict_add_keys. case_bool_decide; [done|].
  apply NoDup_app. split_and!; [done| |apply NoDup_singleton].
  intros x Hx Hk%list_elem_of_singleton. by subst.
Qed.

Lemma dict_get_elem (d : dict) (k : string) (v : Z) :
  NoDup d.*1 → (k, v) ∈ d → dict_get d k = v.
Proof.
  induction d as [|[k0 v0] d IH]; [by intros _ ?%elem_of_nil|].
  cbn [fmap list_fmap fst dict_get]. intros [Hk Hd]%NoDup_cons.
  intros [[= -> ->]|Hin]%elem_of_cons.
  - by rewrite String.eqb_refl.
  - destruct (String.eqb_spec k0 k) as [->|]; [|by apply IH].
    destruct Hk. apply list_elem_of_fmap. by exists (k, v).
Qed.

Lemma dict_elem_get (d : dict) (k : string) :
  k ∈ d.*1 → (k, dict_get d k) ∈ d.
Proof.
  induction d as [|[k0 v0] d IH]; [by intros ?%elem_of_nil|].
  cbn [fmap list_fmap fst dict_get]. intros Hin.
  destruct (String.eqb_spec k0 k) as [->|Hne]; [apply elem_of_cons; by left|].
  apply elem_of_cons. right. apply IH. by apply elem_of_cons in Hin as [?|?].
Qed.

Lemma dict_values_get (d : dict) : NoDup d.*1 → dict_get d <$> d.*1 = d.*2.
Proof.
  induction d as [|[k v] d IH]; [done|].
  cbn [fmap list_fmap fst snd dict_get]. intros [Hk Hd]%NoDup_cons.
  rewrite String.eqb_refl. f_equal. rewrite <-IH by done.
  apply list_fmap_ext. intros i k' Hk'.
  destruct (String.eqb_spec k k') as [->|]; [|done].
  destruct Hk. by apply list_elem_of_lookup_2 in Hk'.
Qed.

Lemma dict_add_sum (d : dict) (k : string) (n : Z) :
  foldr Z.add 0 (dict_add d k n).*2 = foldr Z.add 0 d.*2 + n.
Proof.
  induction d as [|[k0 v] d IH]; cbn [dict_add]; [simpl; lia|].
  destruct (String.eqb k0 k); cbn [fmap list_fmap snd foldr] in *; lia.
Qed.

(** What the loop has put into the dictionaries after the records [rs]. *)
Section Dictionaries.
Context (args : Args).

Lemma advance_all_ext_counts_get (rs : list (string * FileEntry)) (st : Locals) (k : string) :
  dict_get (ext_counts (advance_all args st rs)) k =
  dict_get (ext_counts st) k + Z.of_nat (length (records_of k rs)).
Proof.
  revert st. induction rs as [|r rs IH]; intros st; [simpl; lia|].
  rewrite advance_all_cons, IH, advance_ext_counts, dict_get_add.
  unfold records_of. rewrite filter_cons.
  destruct (decide (key_of r = k)) as [E|E].
  - rewrite bool_decide_eq_true_2 by exact E. cbn [length]. lia.
  - rewrite bool_decide_eq_false_2 by exact E. lia.
Qed.

Lemma advance_all_ext_sizes_get (rs : list (string * FileEntry)) (st : Locals) (k : string) :
  dict_get (ext_sizes (advance_all args st rs)) k =
  dict_get (ext_sizes st) k + bytes_of (records_of k rs).
Proof.
  revert st. induction rs as [|r rs IH]; intros st; [unfold bytes_of; simpl; lia|].
  rewrite advance_all_cons, IH, advance_ext_sizes, dict_get_add.
  unfold records_of. rewrite filter_cons.
  destruct (decide (key_of r = k)) as [E|E].
  - rewrite bool_decide_eq_true_2 by exact E.
    unfold bytes_of. rewrite fmap_cons. cbn [foldr]. lia.
  - rewrite bool_decide_eq_false_2 by exact E. lia.
Qed.

Lemma advance_all_ext_keys (rs : list (string * FileEntry)) (st : Locals) (k : string) :
  k ∈ (ext_counts (advance_all args st rs)).*1 ↔
  k ∈ (ext_counts st).*1 ∨ ∃ r, r ∈ rs ∧ key_of r = k.
Proof.
  revert st. induction rs as [|r rs IH]; intros st.
  - simpl. split; [by left|]. intros [H|(r & Hr%elem_of_nil & _)]; done.
  - rewrite advance_all_cons, IH, advance_ext_counts, dict_add_keys. fold (key_of r).
    split.
    + intros [H|(r' & Hr' & <-)]; [|right; exists r'; split; [by right|done]].
      case_bool_decide; [by left|].
      apply elem_of_app in H as [?|Hx%list_elem_of_singleton]; [by left|].
      right. exists r. split; [by left|done].
    + intros [H|(r' & [->|Hr']%elem_of_cons & <-)].
      * left. case_bool_decide; [done|]. apply elem_of_app. by left.
      * left. case_bool_decide; [done|]. apply elem_of_app. right. by left.
      * right. by exists r'.
Qed.

Lemma advance_all_ext_NoDup (rs : list (string * FileEntry)) (st : Locals) :
  NoDup (ext_counts st).*1 → NoDup (ext_counts (advance_all args st rs)).*1.
Proof.
  revert st. induction rs as [|r rs IH]; intros st H; [done|].
  rewrite advance_all_cons. apply IH. rewrite advance_ext_counts.
  by apply dict_add_NoDup.
Qed.

Lemma advance_all_ext_same_keys (rs : list (string * FileEntry)) (st : Locals) :
  (ext_sizes st).*1 = (ext_counts st).*1 →
  (ext_sizes (advance_all args st rs)).*1 = (ext_counts (advance_all args st rs)).*1.
Proof.
  revert st. induction rs as [|r rs IH]; intros st H; [done|].
  rewrite advance_all_cons. apply IH.
  by rewrite advance_ext_counts, advance_ext_sizes, !dict_add_keys, H.
Qed.

Lemma advance_all_ext_counts_sum (rs : list (string * FileEntry)) (st : Locals) :
  foldr Z.add 0 (ext_counts st).*2 = total_files st →
  foldr Z.add 0 (ext_counts (advance_all args st rs)).*2 =
  total_files (advance_all args st rs).
Proof.
  revert st. induction rs as [|r rs IH]; intros st H; [done|].
  rewrite advance_all_cons. apply IH.
  by rewrite advance_ext_counts, advance_total_files, dict_add_sum, H.
Qed.

Lemma advance_all_ext_sizes_sum (rs : list (string * FileEntry)) (st : Locals) :
  foldr Z.add 0 (ext_sizes st).*2 = total_size st →
  foldr Z.add 0 (ext_sizes (advance_all args st rs)).*2 =
  total_size (advance_all args st rs).
Proof.
  revert st. induction rs as [|r rs IH]; intros st H; [done|].
  rewrite advance_all_cons. apply IH.
  by rewrite advance_ext_sizes, advance_total_size, dict_add_sum, H.
Qed.
End Dictionaries.

(** The rows of the summary are the entries of [ext_counts], each with the
    bytes stored under its key. *)
Lemma summary_rows (counts sizes : dict) (k : string) (c b : Z) :
  (k, c, b) ∈ _make_ext_summary counts sizes ↔ (k, c) ∈ counts ∧ b = dict_get sizes k.
Proof.
  unfold _make_ext_summary. rewrite sorted_reverse_Permutation.
  change (map ?f ?l) with (f <$> l). rewrite list_elem_of_fmap. split.
  - intros ([k' c'] & [= -> -> ->] & H). done.
  - intros [H ->]. by exists (k, c).
Qed.

Lemma summary_keys (counts sizes : dict) :
  (_make_ext_summary counts sizes).*1.*1 ≡ₚ counts.*1.
Proof.
  unfold _make_ext_summary. rewrite sorted_reverse_Permutation.
  change (map ?f ?l) with (f <$> l). by rewrite <-!list_fmap_compose.
Qed.

Lemma summary_counts (counts sizes : dict) :
  (_make_ext_summary counts sizes).*1.*2 ≡ₚ counts.*2.
Proof.
  unfold _make_ext_summary. rewrite sorted_reverse_Permutation.
  change (map ?f ?l) with (f <$> l). by rewrite <-!list_fmap_compose.
Qed.

Lemma summary_bytes (counts sizes : dict) :
  (_make_ext_summary counts sizes).*2 ≡ₚ dict_get sizes <$> counts.*1.
Proof.
  unfold _make_ext_summary. rewrite sorted_reverse_Permutation.
  change (map ?f ?l) with (f <$> l). by rewrite <-!list_fmap_compose.
Qed.

Lemma foldr_add_Permutation (l1 l2 : list Z) :
  l1 ≡ₚ l2 → foldr Z.add 0 l1 = foldr Z.add 0 l2.
Proof. induction 1; simpl; lia. Qed.

(** X2. In the tuple returned by a scan that is not cancelled, the
    extension summary has one row for each extension key met and no key
    twice; the row of a key carries the number of enumerated files with
    that key and the sum of their sizes, a file whose size cannot be read
    adding 0. *)
Theorem summary_rows_count_the_files (args : Args) (folder : string) (tree : Dir) :
  interval_ok args → not_cancelled args (length (enumerate folder tree)) →
  ∃ s, collect_folder_stats_streaming args folder tree = inr s ∧
       NoDup (r_ext_summary s).*1.*1 ∧
       ∀ k c b,
         (k, c, b) ∈ r_ext_summary s ↔
         (∃ r, r ∈ enumerate folder tree ∧ key_of r = k) ∧
         c = Z.of_nat (length (records_of k (enumerate folder tree))) ∧
         b = bytes_of (records_of k (enumerate folder tree)).
Proof.
  intros Hok Hnc. eexists. split.
  { apply collect_of_scan, scan_complete; done. }
  rewrite stats_of_finish. cbn [stats_of r_ext_summary].
  set (rs := enumerate folder tree). set (st := advance_all args init rs).
  assert (Hnd : NoDup (ext_counts st).*1)
    by (apply advance_all_ext_NoDup; constructor).
  split.
  - by rewrite summary_keys.
  - intros k c b. rewrite summary_rows. unfold st at 2.
    rewrite advance_all_ext_sizes_get. cbn [init ext_sizes dict_get].
    split.
    + intros [Hin ->]. split_and!; [| |lia].
      * assert (Hk : k ∈ (ext_counts st).*1)
          by (apply list_elem_of_fmap; by exists (k, c)).
        apply advance_all_ext_keys in Hk as [Hk|Hk]; [|done].
        by apply elem_of_nil in Hk.
      * apply (dict_get_elem _ _ _ Hnd) in Hin. unfold st in Hin.
        rewrite advance_all_ext_counts_get in Hin. cbn in Hin. lia.
    + intros (Hr & -> & ->). split; [|lia].
      assert (Hk : k ∈ (ext_counts st).*1) by (apply advance_all_ext_keys; by right).
      apply dict_elem_get in Hk. unfold st in Hk at 1.
      rewrite advance_all_ext_counts_get in Hk. cbn in Hk. by rewrite Z.add_0_l in Hk.
Qed.

Lemma summary_rows_count_the_files_witness :
  ∃ s, collect_folder_stats_streaming plain_args "root" sample_tree = inr s ∧
       NoDup (r_ext_summary s).*1.*1 ∧
       ∀ k c b,
         (k, c, b) ∈ r_ext_summary s ↔
         (∃ r, r ∈ enumerate "root" sample_tree ∧ key_of r = k) ∧
         c = Z.of_nat (length (records_of k (enumerate "root" sample_tree))) ∧
         b = bytes_of (records_of k (enumerate "root" sample_tree)).
Proof.
  apply (summary_rows_count_the_files plain_args "root" sample_tree).
  - by left.
  - intros k _. reflexivity.
Defined.

(** X3. Complete or cancelled, the rows of the returned extension summary
    add up to the totals returned beside them: the counts to
    [total_files] and the sizes to [total_size]. *)
Theorem summary_adds_up_to_totals (args : Args) (folder : string) (tree : Dir) :
  interval_ok args →
  ∃ s, collect_folder_stats_streaming args folder tree = inr s ∧
       foldr Z.add 0 (r_ext_summary s).*1.*2 = r_total_files s ∧
       foldr Z.add 0 (r_ext_summary s).*2 = r_total_size s.
Proof.
  intros Hok. destruct (scan_outcome args folder tree Hok) as (r & n & E & Hs & _).
  exists (run_stats r). split; [by apply collect_of_scan|].
  rewrite Hs. cbn [stats_of r_ext_summary r_total_files r_total_size].
  split.
  - rewrite (foldr_add_Permutation _ _ (summary_counts _ _)).
    by apply advance_all_ext_counts_sum.
  - rewrite (foldr_add_Permutation _ _ (summary_bytes _ _)).
    rewrite <-(advance_all_ext_same_keys args _ init eq_refl).
    rewrite dict_values_get.
    + by apply advance_all_ext_sizes_sum.
    + rewrite (advance_all_ext_same_keys args _ init eq_refl).
      apply advance_all_ext_NoDup. constructor.
Qed.

Lemma summary_adds_up_to_totals_witness :
  ∃ s, collect_folder_stats_streaming cancel_after_two "root" sample_tree = inr s ∧
       foldr Z.add 0 (r_ext_summary s).*1.*2 = r_total_files s ∧
       foldr Z.add 0 (r_ext_summary s).*2 = r_total_size s.
Proof.
  apply (summary_adds_up_to_totals cancel_after_two "root" sample_tree).
  right. simpl. lia.
Defined.

(** ** The heap of every outcome *)

Lemma advance_all_top_k (args : Args) (rs : list (string * FileEntry)) :
  top_k_of (top_n args) (observation <$> rs) (top_heap (advance_all args init rs)).
Proof.
  rewrite advance_all_top_heap.
  exact (fold_heap_step_top_k (top_n args) (observation <$> rs) [] []
           (top_k_of_nil _)).
Qed.

(** What the caller gets from a run that ends at either [return]. *)
Lemma collect_complete (args : Args) (folder : string) (tree : Dir) :
  interval_ok args → not_cancelled args (length (enumerate folder tree)) →
  collect_folder_stats_streaming args folder tree =
  inr (stats_of (advance_all args init (enumerate folder tree))).
Proof.
  intros Hok Hnc.
  rewrite (collect_of_scan _ _ _ _ (scan_complete args folder tree Hok Hnc)).
  by rewrite stats_of_finish.
Qed.

Lemma collect_outcome (args : Args) (folder : string) (tree : Dir) :
  interval_ok args →
  ∃ n, collect_folder_stats_streaming args folder tree =
       inr (stats_of (advance_all args init (take n (enumerate folder tree)))).
Proof.
  intros Hok. destruct (scan_outcome args folder tree Hok) as (r & n & E & Hs & _).
  exists n. by rewrite (collect_of_scan _ _ _ _ E), Hs.
Qed.

Lemma heap_list_observed (args : Args) (rs : list (string * FileEntry)) :
  _heap_to_list (top_heap (advance_all args init rs)) ⊆+ observation <$> rs.
Proof.
  unfold _heap_to_list. rewrite sorted_reverse_Permutation.
  destruct (advance_all_top_k args rs) as (_ & _ & dropped & Hp & _).
  rewrite Hp. by apply submseteq_inserts_r.
Qed.

(** X4. Complete or cancelled, every [(size, path)] of the returned top
    list is the observation of a file that the walk reaches, and none is
    listed more often than it was observed. *)
Theorem top_files_are_observed_files (args : Args) (folder : string) (tree : Dir) :
  interval_ok args →
  ∃ s, collect_folder_stats_streaming args folder tree = inr s ∧
       r_top_files s ⊆+ observation <$> enumerate folder tree.
Proof.
  intros Hok. destruct (collect_outcome args folder tree Hok) as [n E].
  eexists. split; [exact E|]. cbn [stats_of r_top_files].
  trans (observation <$> take n (enumerate folder tree)).
  - apply heap_list_observed.
  - apply fmap_submseteq, submseteq_take.
Qed.

Lemma top_files_are_observed_files_witness :
  ∃ s, collect_folder_stats_streaming top2_args "root" sample_tree = inr s ∧
       r_top_files s ⊆+ observation <$> enumerate "root" sample_tree.
Proof.
  apply (top_files_are_observed_files top2_args "root" sample_tree). by left.
Defined.

(** X5. The returned top list never has more than [top_n] items, and it is
    empty when [top_n] is 0 or negative: [len(top_heap) < top_n] then
    fails at once, and [heappushpop] on the empty heap hands the item
    back. *)
Theorem top_files_never_exceed_top_n (args : Args) (folder : string) (tree : Dir) :
  interval_ok args →
  ∃ s, collect_folder_stats_streaming args folder tree = inr s ∧
       Z.of_nat (length (r_top_files s)) ≤ Z.max 0 (top_n args) ∧
       (top_n args ≤ 0 → r_top_files s = []).
Proof.
  intros Hok. destruct (collect_outcome args folder tree Hok) as [n E].
  eexists. split; [exact E|]. cbn [stats_of r_top_files].
  destruct (top_k_of_result _ _ _ (advance_all_top_k args (take n (enumerate folder tree))))
    as [_ Hlen].
  split; [lia|]. intros HK.
  apply length_zero_iff_nil. lia.
Qed.

Lemma top_files_never_exceed_top_n_witness :
  ∃ s, collect_folder_stats_streaming top1_args "root" sample_tree = inr s ∧
       Z.of_nat (length (r_top_files s)) ≤ Z.max 0 (top_n top1_args) ∧
       (top_n top1_args ≤ 0 → r_top_files s = []).
Proof.
  apply (top_files_never_exceed_top_n top1_args "root" sample_tree). by left.
Defined.

(** ** Which scans raise *)

(** X6. The scan raises the [ZeroDivisionError] of
    [processed % update_every] exactly when a callback is given,
    [update_every] is 0, the walk reaches at least one file and the event
    is not set at the first poll. In every other case it returns a
    tuple. *)
Theorem scan_raises_only_on_zero_interval (args : Args) (folder : string) (tree : Dir) :
  collect_folder_stats_streaming args folder tree = inl ZeroDivisionError ↔
  is_Some (progress_callback args) ∧ update_every args = 0 ∧
  enumerate folder tree ≠ [] ∧ polled args 0 = false.
Proof.
  split.
  - intros H.
    destruct (progress_callback args) as [cb|] eqn:Hcb.
    2:{ destruct (scan_returns args folder tree) as [r E]; [by left|].
        by rewrite (collect_of_scan _ _ _ _ E) in H. }
    destruct (decide (update_every args = 0)) as [HN|HN].
    2:{ destruct (scan_returns args folder tree) as [r E]; [by right|].
        by rewrite (collect_of_scan _ _ _ _ E) in H. }
    unfold collect_folder_stats_streaming in H. rewrite scan_flat in H.
    split_and!; [by eexists|done| |].
    + intros Hnil. by rewrite Hnil in H.
    + destruct (enumerate folder tree) as [|r rs]; [done|].
      destruct (polled args 0) eqn:Hp; [|done].
      cbn [for_each] in H. by rewrite body_cancelled in H.
  - intros ([cb Hcb] & HN & Hne & Hp).
    unfold collect_folder_stats_streaming. rewrite scan_flat.
    destruct (enumerate folder tree) as [|r rs]; [done|].
    cbn [for_each]. by rewrite (body_raises args init r cb).
Qed.

(** ** The calls of the progress callback *)

Lemma periodic_elem (N p : Z) (n : nat) (v : Z) :
  v ∈ periodic N p n ↔ p < v ≤ p + Z.of_nat n ∧ v `mod` N = 0.
Proof.
  revert p. induction n as [|n IH]; intros p; cbn [periodic].
  - split; [by intros ?%elem_of_nil|lia].
  - rewrite elem_of_app, IH. destruct (Z.eqb_spec ((p + 1) `mod` N) 0) as [E|E].
    + rewrite list_elem_of_singleton. split.
      * intros [->|?]; [split; [lia|done]|split; [lia|tauto]].
      * intros [? ?]. destruct (decide (v = p + 1)); [by left|right; split; [lia|done]].
    + split.
      * intros [?%elem_of_nil|?]; [done|split; [lia|tauto]].
      * intros [? Hm]. right. split; [|done].
        destruct (decide (v = p + 1)) as [->|]; [done|lia].
Qed.

Lemma div_succ (N m : Z) :
  0 < N → 0 ≤ m →
  (m + 1) `div` N = m `div` N + (if (m + 1) `mod` N =? 0 then 1 else 0).
Proof.
  intros HN Hm. destruct (Z.eqb_spec ((m + 1) `mod` N) 0) as [E|E];
    Z.div_mod_to_equations; nia.
Qed.

Lemma periodic_length (N : Z) (n : nat) :
  0 < N → Z.of_nat (length (periodic N 0 n)) = Z.of_nat n `div` N.
Proof.
  intros HN. induction n as [|n IH].
  - simpl. by rewrite Z.div_0_l by lia.
  - rewrite periodic_snoc, length_app, Nat2Z.inj_add, IH.
    replace (0 + Z.of_nat (S n)) with (Z.of_nat n + 1) by lia.
    replace (Z.of_nat (S n)) with (Z.of_nat n + 1) by lia.
    rewrite (div_succ N (Z.of_nat n)) by lia.
    by destruct (_ =? 0).
Qed.

Lemma run_delivered_complete (args : Args) (cb : callback) (folder : string) (tree : Dir) :
  progress_callback args = Some cb → update_every args ≠ 0 →
  not_cancelled args (length (enumerate folder tree)) →
  ∃ r, scan args folder tree = inr r ∧
       run_delivered r =
         ((λ v, (v, total_estimate args)) <$>
            periodic (update_every args) 0 (length (enumerate folder tree))) ++
         [(Z.of_nat (length (enumerate folder tree)), total_estimate args)].
Proof.
  intros Hcb HN Hnc. eexists. split; [apply scan_complete; [by right|done]|].
  rewrite (run_delivered_finish _ cb) by done.
  rewrite advance_all_delivered, advance_all_processed, Hcb.
  cbn [init delivered processed]. by rewrite app_nil_l.
Qed.

(** X7. In a scan that is not cancelled, with a callback and
    [update_every = N] at least 1, the calls before the final one carry
    exactly the positive multiples of [N] up to the number of files, each
    with the [total_estimate] given by the caller; with the final call the
    callback is called [total div N + 1] times. *)
Theorem periodic_progress_at_multiples (args : Args) (cb : callback)
    (folder : string) (tree : Dir) :
  progress_callback args = Some cb → 1 ≤ update_every args →
  not_cancelled args (length (enumerate folder tree)) →
  ∃ r inner,
    let total := Z.of_nat (length (enumerate folder tree)) in
    scan args folder tree = inr r ∧
    run_delivered r = inner ++ [(total, total_estimate args)] ∧
    (∀ v est, (v, est) ∈ inner ↔
       est = total_estimate args ∧ 0 < v ≤ total ∧ v `mod` update_every args = 0) ∧
    Z.of_nat (length (run_delivered r)) = total `div` update_every args + 1.
Proof.
  intros Hcb HN Hnc.
  destruct (run_delivered_complete args cb folder tree Hcb ltac:(lia) Hnc) as (r & E & Hd).
  eexists r, _. cbn zeta. split_and!; [done|exact Hd| |].
  - intros v est. rewrite list_elem_of_fmap. split.
    + intros (v' & [= -> ->] & Hv). apply periodic_elem in Hv. split; [done|lia].
    + intros (-> & Hv & Hm). exists v. split; [done|]. apply periodic_elem. lia.
  - rewrite Hd, length_app, length_fmap, Nat2Z.inj_add, periodic_length by lia.
    simpl. lia.
Qed.

Lemma periodic_progress_at_multiples_witness :
  ∃ r inner,
    let total := Z.of_nat (length (enumerate "root" sample_tree)) in
    scan every_other_file_args "root" sample_tree = inr r ∧
    run_delivered r = inner ++ [(total, total_estimate every_other_file_args)] ∧
    (∀ v est, (v, est) ∈ inner ↔
       est = total_estimate every_other_file_args ∧ 0 < v ≤ total ∧
       v `mod` update_every every_other_file_args = 0) ∧
    Z.of_nat (length (run_delivered r)) =
      total `div` update_every every_other_file_args + 1.
Proof.
  apply (periodic_progress_at_multiples every_other_file_args never_raises
           "root" sample_tree).
  - reflexivity.
  - simpl. lia.
  - intros k _. reflexivity.
Defined.

(** X8. A scan cancelled at the poll after [i] files returns without the
    final call: the values delivered are the periodic ones up to [i], so
    the callback has seen the file count of the returned tuple only when
    [i] is a positive multiple of [update_every]. *)
Theorem cancelled_scan_makes_no_final_call (args : Args) (cb : callback)
    (folder : string) (tree : Dir) (i : nat) :
  progress_callback args = Some cb → update_every args ≠ 0 →
  not_cancelled args i → polled args i = true →
  (i < length (enumerate folder tree))%nat →
  ∃ r, scan args folder tree = inr r ∧
       run_terminal r = Cancelled ∧
       (run_delivered r).*1 = periodic (update_every args) 0 i ∧
       (Z.of_nat i ∈ (run_delivered r).*1 ↔
          (0 < i)%nat ∧ Z.of_nat i `mod` update_every args = 0).
Proof.
  intros Hcb HN Hnc Hat Hi. eexists. split.
  { apply (scan_cancelled args folder tree i); [right; by right|done..]. }
  cbn [run_terminal run_delivered].
  assert (Hd : (delivered (advance_all args init (take i (enumerate folder tree)))).*1 =
               periodic (update_every args) 0 i).
  { rewrite advance_all_delivered, Hcb. cbn [init delivered processed].
    rewrite app_nil_l, <-list_fmap_compose, length_take.
    replace (i `min` length (enumerate folder tree))%nat with i by lia.
    rewrite <-(list_fmap_id (periodic _ _ _)) at 2. by apply list_fmap_ext. }
  split_and!; [done|done|]. rewrite Hd, periodic_elem. lia.
Qed.

Lemma cancelled_scan_makes_no_final_call_witness :
  ∃ r, scan cancel_after_two "root" sample_tree = inr r ∧
       run_terminal r = Cancelled ∧
       (run_delivered r).*1 = periodic (update_every cancel_after_two) 0 2 ∧
       (Z.of_nat 2 ∈ (run_delivered r).*1 ↔
          (0 < 2)%nat ∧ Z.of_nat 2 `mod` update_every cancel_after_two = 0).
Proof.
  apply (cancelled_scan_makes_no_final_call cancel_after_two never_raises
           "root" sample_tree 2).
  - reflexivity.
  - simpl. lia.
  - intros k Hk. destruct k as [|[|k]]; [reflexivity|reflexivity|lia].
  - reflexivity.
  - simpl. lia.
Defined.

(** ** The records of a walk, directory by directory *)

Lemma flat_map_flat_map {A B C} (f : B → list C) (g : A → list B) (l : list A) :
  flat_map f (flat_map g l) = flat_map (λ x, flat_map f (g x)) l.
Proof.
  induction l as [|x l IH]; simpl; [done|]. by rewrite flat_map_app, IH.
Qed.

Lemma flat_map_ext_Forall {A B} (f g : A → list B) (l : list A) :
  Forall (λ x, f x = g x) l → flat_map f l = flat_map g l.
Proof. induction 1 as [|x l Hx _ IH]; simpl; [done|]. by rewrite Hx, IH. Qed.

Lemma prune_not_link (e : DirEntry) : prune e = true → d_islink e = false.
Proof. unfold prune. by destruct (d_islink e). Qed.

Lemma enumerate_unfold (top : string) (filenames : list FileEntry) (subs : listing) :
  enumerate top (MkDir filenames subs) =
  map (λ f, (top, f)) filenames ++
  flat_map (λ es : DirEntry * Dir,
              if prune es.1 then enumerate (path_join top (d_name es.1)) es.2 else [])
           subs.
Proof.
  unfold enumerate. cbn [os_walk flat_map]. f_equal.
  rewrite flat_map_flat_map. apply flat_map_ext_Forall, Forall_forall.
  intros [e sub] _. cbn [fst snd]. destruct (prune e) eqn:Hp.
  - by rewrite (prune_not_link e Hp).
  - done.
Qed.

Lemma iter_all_files_enumerate (folder : string) (tree : Dir) :
  iter_all_files folder tree =
  (λ r : string * FileEntry, path_join r.1 (f_name r.2)) <$> enumerate folder tree.
Proof.
  unfold iter_all_files, enumerate.
  induction (os_walk prune folder tree) as [|w ws IH]; [done|].
  cbn [flat_map]. rewrite fmap_app, IH. f_equal.
  change (map ?f ?l) with (f <$> l). by rewrite <-list_fmap_compose.
Qed.

(** X9. [iter_all_files] yields, in the same order, the paths that the
    scan offers to its heap; a scan of the same tree that is not cancelled
    counts as many files as [iter_all_files] yields, and the paths of its
    top list are among them. *)
Theorem iter_all_files_yields_the_scanned_paths (args : Args) (folder : string)
    (tree : Dir) :
  interval_ok args → not_cancelled args (length (enumerate folder tree)) →
  iter_all_files folder tree = (observation <$> enumerate folder tree).*2 ∧
  ∃ s, collect_folder_stats_streaming args folder tree = inr s ∧
       r_total_files s = Z.of_nat (length (iter_all_files folder tree)) ∧
       (r_top_files s).*2 ⊆+ iter_all_files folder tree.
Proof.
  intros Hok Hnc.
  assert (E : iter_all_files folder tree = (observation <$> enumerate folder tree).*2)
    by (by rewrite iter_all_files_enumerate, <-list_fmap_compose).
  split; [done|]. eexists. split; [by apply collect_complete|].
  cbn [stats_of r_total_files r_top_files]. split.
  - by rewrite advance_all_total_files, iter_all_files_enumerate, length_fmap.
  - rewrite E. apply fmap_submseteq, heap_list_observed.
Qed.

Lemma iter_all_files_yields_the_scanned_paths_witness :
  iter_all_files "root" mounted_tree =
    (observation <$> enumerate "root" mounted_tree).*2 ∧
  ∃ s, collect_folder_stats_streaming plain_args "root" mounted_tree = inr s ∧
       r_total_files s = Z.of_nat (length (iter_all_files "root" mounted_tree)) ∧
       (r_top_files s).*2 ⊆+ iter_all_files "root" mounted_tree.
Proof.
  apply (iter_all_files_yields_the_scanned_paths plain_args "root" mounted_tree).
  - by left.
  - intros k _. reflexivity.
Defined.

(** ** Paths stay below the folder *)

Lemma has_prefix_refl (s : string) : has_prefix s s = true.
Proof. induction s as [|a s IH]; simpl; [done|]. by rewrite Ascii.eqb_refl. Qed.

Lemma has_prefix_append (s t : string) : has_prefix s (s +:+ t) = true.
Proof.
  induction s as [|a s IH]; [done|]. rewrite append_cons. simpl.
  by rewrite Ascii.eqb_refl.
Qed.

Lemma has_prefix_trans (a b c : string) :
  has_prefix a b = true → has_prefix b c = true → has_prefix a c = true.
Proof.
  revert b c. induction a as [|x a IH]; intros [|y b] [|z c]; simpl; try done.
  intros [Hxy Hab]%andb_prop [Hyz Hbc]%andb_prop.
  apply Ascii.eqb_eq in Hxy as ->. rewrite Hyz. simpl. by apply (IH b).
Qed.

Lemma path_join_prefix (a b : string) :
  Str.contains Str.sep b = false → has_prefix a (path_join a b) = true.
Proof.
  intros Hb. unfold path_join.
  assert (Str.startswith Str.sep b = false) as ->.
  { destruct b; [done|]. simpl in *. by apply orb_false_iff in Hb as [-> _]. }
  destruct (_ || _); apply has_prefix_append.
Qed.

Lemma os_walk_below (keep : DirEntry → bool) (tree : Dir) (top : string) (w : walk_item) :
  plain_names tree = true → w ∈ os_walk keep top tree →
  has_prefix top w.1.1 = true ∧
  forallb (λ f, negb (Str.contains Str.sep (f_name f))) w.2 = true.
Proof.
  revert top. induction tree as [filenames dirnames IH] using Dir_nested_ind.
  intros top Hp. cbn [plain_names] in Hp. apply andb_prop in Hp as [Hf Hd].
  cbn [os_walk]. intros [->|Hin]%elem_of_cons.
  - split; [apply has_prefix_refl|done].
  - apply list_elem_of_In, in_flat_map in Hin as ([e sub] & Hes & Hw).
    rewrite Forall_forall in IH. specialize (IH (e, sub)).
    rewrite forallb_forall in Hd. specialize (Hd _ Hes).
    apply andb_prop in Hd as [He Hsub]. apply negb_true_iff in He.
    destruct (keep e && negb (d_islink e)); [|by apply in_nil in Hw].
    apply list_elem_of_In in Hw, Hes.
    destruct (IH Hes (path_join top (d_name e)) Hsub Hw) as [H1 H2].
    split; [|done]. by apply (has_prefix_trans _ (path_join top (d_name e))), H1; apply path_join_prefix.
Qed.

(** X10. When no name in the tree contains a separator, every path that
    [iter_all_files(folder)] yields begins with [folder]. *)
Theorem iter_all_files_stays_below_folder (folder : string) (tree : Dir) (p : string) :
  plain_names tree = true → p ∈ iter_all_files folder tree →
  has_prefix folder p = true.
Proof.
  intros Hp Hin. unfold iter_all_files in Hin.
  apply list_elem_of_In, in_flat_map in Hin as (w & Hw & Hin).
  apply in_map_iff in Hin as (f & <- & Hf).
  apply list_elem_of_In in Hw.
  destruct (os_walk_below prune tree folder w Hp Hw) as [H1 H2].
  rewrite forallb_forall in H2. specialize (H2 f Hf). apply negb_true_iff in H2.
  by apply (has_prefix_trans _ w.1.1), path_join_prefix.
Qed.

Lemma iter_all_files_stays_below_folder_witness :
  has_prefix "root" "root/sub/e.TXT" = true.
Proof.
  apply (iter_all_files_stays_below_folder "root" sample_tree "root/sub/e.TXT").
  - reflexivity.
  - vm_compute. repeat (try (by left); right).
Defined.

(** ** What lies below a pruned entry does not matter *)

Lemma same_where_kept_enumerate (t t' : Dir) (top : string) :
  same_where_kept t t' → enumerate top t = enumerate top t'.
Proof.
  revert t' top. induction t as [filenames subs IH] using Dir_nested_ind.
  intros t' top H. inversion H as [fs s1 s2 HF]; subst.
  rewrite !enumerate_unfold. f_equal.
  induction HF as [|[e sub] [e' sub'] s1 s2 [He Hsub] HF IHF]; [done|].
  cbn [fst snd] in *. subst e'. apply Forall_cons in IH as [IHsub IHrest].
  cbn [flat_map fst snd]. f_equal.
  - destruct (prune e); [|done]. by apply IHsub, Hsub.
  - apply IHF; [done|]. by constructor.
Qed.

(** X11. What lies below a directory entry that the pruning loop drops (a
    link, a mount point, an entry on which the check raises) has no
    influence: two trees that agree everywhere else give the same paths
    from [iter_all_files] and the same outcome of the scan, whatever the
    arguments. *)
Theorem pruned_directories_are_never_entered (args : Args) (folder : string)
    (t t' : Dir) :
  same_where_kept t t' →
  iter_all_files folder t = iter_all_files folder t' ∧
  collect_folder_stats_streaming args folder t =
  collect_folder_stats_streaming args folder t'.
Proof.
  intros H. pose proof (same_where_kept_enumerate t t' folder H) as E. split.
  - by rewrite !iter_all_files_enumerate, E.
  - unfold collect_folder_stats_streaming. by rewrite !scan_flat, E.
Qed.

Lemma pruned_directories_are_never_entered_witness :
  iter_all_files "root" mounted_tree = iter_all_files "root" other_mount ∧
  collect_folder_stats_streaming plain_args "root" mounted_tree =
  collect_folder_stats_streaming plain_args "root" other_mount.
Proof.
  apply (pruned_directories_are_never_entered plain_args "root" mounted_tree other_mount).
  constructor. constructor; [|constructor].
  split; [reflexivity|]. intros H. vm_compute in H. discriminate H.
Defined.

(** ** Symbolic links alone *)

Lemma os_walk_links_only (tree : Dir) (top : string) :
  all_dirs link_or_plain tree = true →
  os_walk prune top tree = os_walk no_prune top tree.
Proof.
  revert top. induction tree as [filenames dirnames IH] using Dir_nested_ind.
  intros top H. cbn [os_walk all_dirs] in *. f_equal.
  induction dirnames as [|[e sub] dirnames IHd]; [done|].
  cbn [flat_map forallb] in *.
  apply andb_prop in H as [[He Hs]%andb_prop Hd].
  apply Forall_cons in IH as [IHsub IHrest].
  rewrite (IHd IHrest Hd). f_equal.
  unfold link_or_plain in He. unfold prune, no_prune.
  destruct (d_islink e), (d_ismount e), (d_ismount_raises e); try done.
  cbn. by apply IHsub.
Qed.

(** X12. Symbolic links do not separate the estimate from the scan: when
    every directory entry of the tree is a link, or passes the mount check
    and is no mount point, [quick_count_files] equals the [total_files] of
    a scan that is not cancelled. [os.walk] does not follow the links that
    [quick_count_files] leaves in [dirnames]. *)
Theorem links_alone_keep_the_counts_equal (args : Args) (folder : string) (tree : Dir) :
  all_dirs link_or_plain tree = true →
  interval_ok args → not_cancelled args (length (enumerate folder tree)) →
  ∃ s, collect_folder_stats_streaming args folder tree = inr s ∧
       quick_count_files folder tree = r_total_files s.
Proof.
  intros H Hok Hnc. eexists. split; [by apply collect_complete|].
  cbn [stats_of r_total_files].
  by rewrite advance_all_total_files, quick_count_files_length, enumerate_length,
    os_walk_links_only.
Qed.

Lemma links_alone_keep_the_counts_equal_witness :
  ∃ s, collect_folder_stats_streaming plain_args "root" linked_tree = inr s ∧
       quick_count_files "root" linked_tree = r_total_files s.
Proof.
  apply (links_alone_keep_the_counts_equal plain_args "root" linked_tree).
  - reflexivity.
  - by left.
  - intros k _. reflexivity.
Defined.

(** ** The cache summary *)

Lemma try_each_ok {S E X : Type} (body : S → X → E + S) (step : S → X → S)
    (s : S) (xs : list X) :
  Forall (λ x, ∀ s, body s x = inr (step s x)) xs →
  try_each body s xs = inr (fold_left step xs s).
Proof.
  revert s. induction xs as [|x xs IH]; intros s H; [done|].
  apply Forall_cons in H as [Hx Hxs]. cbn [try_each fold_left].
  rewrite Hx. by apply IH.
Qed.

Lemma cache_visit_dir_ok (top_n : Z) (st : CacheLocals) (w : walk_item) :
  cache_filter_raises w.1.2 = false →
  cache_visit_dir top_n st w = inr (cache_step top_n st w).
Proof. intros H. unfold cache_visit_dir. by rewrite H. Qed.

Lemma cache_visit_dir_raises (top_n : Z) (st : CacheLocals) (w : walk_item) :
  cache_filter_raises w.1.2 = true →
  cache_visit_dir top_n st w = inl CheckRaised.
Proof. intros H. unfold cache_visit_dir. by rewrite H. Qed.

Lemma cache_loop_raises (top_n : Z) (st : CacheLocals) (ws : list walk_item) :
  try_each (cache_visit_dir top_n) st ws = inl CheckRaised ↔
  ∃ w, w ∈ ws ∧ cache_filter_raises w.1.2 = true.
Proof.
  revert st. induction ws as [|w ws IH]; intros st; cbn [try_each].
  - split; [done|]. by intros (w & Hw%elem_of_nil & _).
  - destruct (cache_filter_raises w.1.2) eqn:E.
    + rewrite cache_visit_dir_raises by done. split; [|done].
      intros _. exists w. split; [apply elem_of_cons; by left|done].
    + rewrite cache_visit_dir_ok, IH by done. split.
      * intros (w' & Hw' & Hr). exists w'. split; [apply elem_of_cons; by right|done].
      * intros (w' & [->|Hw']%elem_of_cons & Hr); [congruence|by exists w'].
Qed.

Lemma cache_loop_ok (top_n : Z) (st : CacheLocals) (ws : list walk_item) :
  Forall (λ w, cache_filter_raises w.1.2 = false) ws →
  try_each (cache_visit_dir top_n) st ws = inr (fold_left (cache_step top_n) ws st).
Proof.
  intros H. apply try_each_ok. eapply Forall_impl; [exact H|].
  intros w Hw s. by apply cache_visit_dir_ok.
Qed.

(** The fields after the files of one directory, and after a whole walk. *)

Lemma readable_app (a b : list (string * FileEntry)) :
  readable (a ++ b) = readable a ++ readable b.
Proof. apply filter_app. Qed.

Lemma readable_size_app (a b : list (string * FileEntry)) :
  readable_size (a ++ b) = readable_size a + readable_size b.
Proof.
  unfold readable_size. rewrite omap_app.
  induction (omap _ a) as [|x l IH]; cbn; [done|]. rewrite IH. lia.
Qed.

Lemma readable_cons (r : string * FileEntry) (rs : list (string * FileEntry)) :
  readable (r :: rs) =
  match f_size r.2 with Some _ => [r] | None => [] end ++ readable rs.
Proof.
  unfold readable. rewrite filter_cons. destruct (f_size r.2) as [sz|].
  - by rewrite decide_True by (by eexists).
  - by rewrite decide_False by (by intros [? ?]).
Qed.

Lemma readable_size_cons (r : string * FileEntry) (rs : list (string * FileEntry)) :
  readable_size (r :: rs) = getsize_or_0 r.2 + readable_size rs.
Proof. unfold readable_size, getsize_or_0. simpl. by destruct (f_size r.2). Qed.

Lemma cache_visit_files top_n dirpath fs st :
  let rs := map (λ f, (dirpath, f)) fs in
  let st' := fold_left (cache_visit top_n dirpath) fs st in
  c_total_size st' = c_total_size st + readable_size rs ∧
  c_files_count st' = c_files_count st + Z.of_nat (length (readable rs)) ∧
  c_folders st' = c_folders st ∧
  c_top_heap st' =
    fold_left (heap_step top_n) (observation <$> readable rs) (c_top_heap st).
Proof.
  revert st. induction fs as [|f fs IH]; intros st; cbn zeta.
  - cbn. split_and!; [lia|lia|done|done].
  - cbn [fold_left]. destruct (IH (cache_visit top_n dirpath st f)) as (H1 & H2 & H3 & H4).
    rewrite H1, H2, H3, H4. clear IH H1 H2 H3 H4.
    cbn [map]. rewrite readable_cons, readable_size_cons, length_app, fmap_app, fold_left_app.
    unfold cache_visit, getsize_or_0. cbn [snd].
    destruct (f_size f) as [sz|] eqn:E.
    + cbn [c_total_size c_files_count c_folders c_top_heap length fmap list_fmap fold_left].
      split_and!; [lia|lia|done|].
      unfold observation, getsize_or_0, heap_step. cbn [fst snd]. by rewrite E.
    + cbn [length fmap list_fmap fold_left]. split_and!; [lia|lia|done|done].
Qed.

Lemma cache_walk_fields top_n ws st :
  let rs := flat_records ws in
  let st' := fold_left (cache_step top_n) ws st in
  c_total_size st' = c_total_size st + readable_size rs ∧
  c_files_count st' = c_files_count st + Z.of_nat (length (readable rs)) ∧
  c_folders st' = fold_left (λ s (w : walk_item), set_add w.1.1 s) ws (c_folders st) ∧
  c_top_heap st' =
    fold_left (heap_step top_n) (observation <$> readable rs) (c_top_heap st).
Proof.
  revert st. induction ws as [|w ws IH]; intros st; cbn zeta.
  - cbn. split_and!; [lia|lia|done|done].
  - cbn [fold_left]. destruct (IH (cache_step top_n st w)) as (H1 & H2 & H3 & H4).
    rewrite H1, H2, H3, H4. clear IH H1 H2 H3 H4.
    unfold cache_step.
    destruct (cache_visit_files top_n w.1.1 w.2
      {| c_total_size := c_total_size st; c_files_count := c_files_count st;
         c_folders := set_add w.1.1 (c_folders st); c_top_heap := c_top_heap st |})
      as (H1 & H2 & H3 & H4).
    rewrite H1, H2, H3, H4. cbn [c_total_size c_files_count c_folders c_top_heap].
    unfold flat_records. cbn [flat_map].
    rewrite readable_app, readable_size_app, length_app, fmap_app, fold_left_app.
    split_and!; [lia|lia|done|done].
Qed.

Lemma set_add_NoDup (x : string) (s : list string) : NoDup s → NoDup (set_add x s).
Proof.
  intros H. unfold set_add. case_bool_decide as E; [done|].
  apply NoDup_app. split_and!; [done| |apply NoDup_singleton].
  intros y Hy ->%list_elem_of_singleton. done.
Qed.

Lemma set_add_elem (x y : string) (s : list string) :
  y ∈ set_add x s ↔ y = x ∨ y ∈ s.
Proof.
  unfold set_add. case_bool_decide as E.
  - split; [by right|]. by intros [->|?].
  - rewrite elem_of_app, list_elem_of_singleton. tauto.
Qed.

Lemma folders_fold (ws : list walk_item) (s : list string) :
  NoDup s →
  let s' := fold_left (λ s (w : walk_item), set_add w.1.1 s) ws s in
  NoDup s' ∧ ∀ y, y ∈ s' ↔ y ∈ s ∨ y ∈ (λ w : walk_item, w.1.1) <$> ws.
Proof.
  revert s. induction ws as [|w ws IH]; intros s Hs; cbn zeta.
  - split; [done|]. intros y. rewrite fmap_nil, elem_of_nil. tauto.
  - cbn [fold_left]. destruct (IH (set_add w.1.1 s) (set_add_NoDup _ _ Hs)) as [H1 H2].
    split; [done|]. intros y. rewrite H2, set_add_elem, fmap_cons, elem_of_cons. tauto.
Qed.

Lemma cache_records_flat (p : string) (t : option Dir) :
  cache_records p t = flat_records (cache_walk p t).
Proof. done. Qed.

Lemma cache_summary_raises (top_n : Z) (p : string) (t : option Dir) :
  cache_summary_of top_n p t = inl CheckRaised ↔
  ∃ w, w ∈ cache_walk p t ∧ cache_filter_raises w.1.2 = true.
Proof.
  rewrite <-(cache_loop_raises top_n cache_init). unfold cache_summary_of.
  destruct (try_each _ _ _) as [[]|st]; [done|]. split; done.
Qed.

Lemma cache_summary_returns (top_n : Z) (p : string) (t : option Dir) :
  Forall (λ w : walk_item, cache_filter_raises w.1.2 = false) (cache_walk p t) →
  let rs := readable (cache_records p t) in
  cache_summary_of top_n p t =
  inr {| m_size := readable_size (cache_records p t);
         m_files := Z.of_nat (length rs);
         m_folders :=
           Z.of_nat (length (fold_left (λ s (w : walk_item), set_add w.1.1 s)
                                       (cache_walk p t) []));
         m_top := _heap_to_list (fold_left (heap_step top_n) (observation <$> rs) []) |}.
Proof.
  intros Hok. cbn zeta. unfold cache_summary_of.
  rewrite (cache_loop_ok _ _ _ Hok).
  destruct (cache_walk_fields top_n (cache_walk p t) cache_init) as (H1 & H2 & H3 & H4).
  cbn zeta in *. rewrite H1, H2, H3, H4.
  cbn [cache_init c_total_size c_files_count c_folders c_top_heap].
  by rewrite !Z.add_0_l.
Qed.

Lemma cache_summary_checked (top_n : Z) (p : string) (t : option Dir) (m : CacheMeta) :
  cache_summary_of top_n p t = inr m →
  Forall (λ w : walk_item, cache_filter_raises w.1.2 = false) (cache_walk p t).
Proof.
  intros H. apply Forall_forall. intros w Hw.
  destruct (cache_filter_raises w.1.2) eqn:Hr; [|done].
  assert (cache_summary_of top_n p t = inl CheckRaised) as Hx
    by (apply cache_summary_raises; by exists w).
  congruence.
Qed.

Lemma readable_size_readable (rs : list (string * FileEntry)) :
  readable_size (readable rs) = readable_size rs.
Proof.
  induction rs as [|r rs IH]; [done|].
  rewrite readable_cons, readable_size_app, readable_size_cons, IH.
  unfold getsize_or_0. destruct (f_size r.2) as [sz|] eqn:E.
  - rewrite readable_size_cons. unfold getsize_or_0. rewrite E. cbn. lia.
  - cbn. lia.
Qed.

(** X13. When the round of [get_cache_summary] for a path returns, [files]
    is the number of files reached whose size could be read and [size] the
    sum of their sizes; [top] holds the [top_n] largest of these sizes in
    descending order, each item being the observation of such a file; and
    [folders] is the number of distinct directory paths walked. A file
    whose size cannot be read is passed over by [continue]: it is neither
    counted nor offered to the heap. *)
Theorem cache_summary_counts_readable_files (top_n : Z) (p : string)
    (t : option Dir) (m : CacheMeta) :
  cache_summary_of top_n p t = inr m →
  let rs := readable (cache_records p t) in
  m_files m = Z.of_nat (length rs) ∧
  m_size m = bytes_of rs ∧
  (m_top m).*1 = k_largest (Z.to_nat top_n) ((observation <$> rs).*1) ∧
  m_top m ⊆+ observation <$> rs ∧
  m_folders m =
    Z.of_nat (length (remove_dups ((λ w : walk_item, w.1.1) <$> cache_walk p t))).
Proof.
  intros H. cbn zeta.
  rewrite (cache_summary_returns top_n p t (cache_summary_checked _ _ _ _ H)) in H.
  injection H as <-. cbn [m_files m_size m_top m_folders].
  pose proof (fold_heap_step_top_k top_n (observation <$> readable (cache_records p t)) [] []
                (top_k_of_nil _)) as Htop.
  rewrite app_nil_l in Htop.
  split_and!.
  - done.
  - unfold bytes_of. by rewrite readable_size_getsize, readable_size_readable.
  - by destruct (top_k_of_result _ _ _ Htop) as [-> _].
  - unfold _heap_to_list. rewrite sorted_reverse_Permutation.
    destruct Htop as (_ & _ & dropped & Hp & _).
    etrans; [|apply Permutation_submseteq; symmetry; exact Hp].
    by apply submseteq_inserts_r.
  - f_equal. apply Permutation_length, NoDup_Permutation.
    + apply (folders_fold _ []). constructor.
    + apply NoDup_remove_dups.
    + intros y. destruct (folders_fold (cache_walk p t) [] (NoDup_nil_2)) as [_ ->].
      rewrite elem_of_remove_dups, elem_of_nil. tauto.
Qed.

Lemma cache_summary_counts_readable_files_witness :
  let m := {| m_size := 36; m_files := 4; m_folders := 2;
              m_top := [(20, "root/b.txt"%string); (10, "root/a.txt"%string)] |} in
  let rs := readable (cache_records "root" (Some sample_tree)) in
  m_files m = Z.of_nat (length rs) ∧
  m_size m = bytes_of rs ∧
  (m_top m).*1 = k_largest (Z.to_nat 2) ((observation <$> rs).*1) ∧
  m_top m ⊆+ observation <$> rs ∧
  m_folders m =
    Z.of_nat (length (remove_dups ((λ w : walk_item, w.1.1) <$>
                                     cache_walk "root" (Some sample_tree)))).
Proof.
  apply (cache_summary_counts_readable_files 2 "root" (Some sample_tree)).
  reflexivity.
Defined.

(** X14. The round for a path raises exactly when the walk reaches a
    directory with an entry that is not a link and on which
    [os.path.ismount] raises: the filter of [get_cache_summary] has no
    [try] around it, unlike the pruning loop of the scan. *)
Theorem cache_summary_raises_on_failed_check (top_n : Z) (p : string) (t : option Dir) :
  cache_summary_of top_n p t = inl CheckRaised ↔
  ∃ (w : walk_item) (e : DirEntry) (sub : Dir),
    w ∈ cache_walk p t ∧ (e, sub) ∈ w.1.2 ∧
    d_islink e = false ∧ d_ismount_raises e = true.
Proof.
  rewrite cache_summary_raises. split.
  - intros (w & Hw & Hr). unfold cache_filter_raises in Hr.
    apply existsb_exists in Hr as ([e sub] & Hin & [Hl Hm]%andb_prop).
    exists w, e, sub. apply negb_true_iff in Hl.
    split_and!; [done|by apply list_elem_of_In|done|done].
  - intros (w & e & sub & Hw & Hin & Hl & Hm). exists w. split; [done|].
    apply existsb_exists. exists (e, sub). split; [by apply list_elem_of_In|].
    cbn [fst]. by rewrite Hl, Hm.
Qed.

(** ** The cache walk and the scan *)

Lemma all_dirs_walk (P : DirEntry → bool) (keep : DirEntry → bool) (tree : Dir)
    (top : string) (w : walk_item) (e : DirEntry) (sub : Dir) :
  all_dirs P tree = true → w ∈ os_walk keep top tree → (e, sub) ∈ w.1.2 → P e = true.
Proof.
  revert top. induction tree as [filenames dirnames IH] using Dir_nested_ind.
  intros top H. cbn [os_walk all_dirs] in *. intros [->|Hin]%elem_of_cons He.
  - cbn [fst snd] in He. rewrite forallb_forall in H.
    apply list_elem_of_In in He. by destruct (andb_prop _ _ (H _ He)).
  - apply list_elem_of_In, in_flat_map in Hin as ([e' sub'] & Hes & Hw).
    rewrite Forall_forall in IH. rewrite forallb_forall in H.
    destruct (andb_prop _ _ (H _ Hes)) as [_ Hsub].
    destruct (keep e' && negb (d_islink e')); [|by apply in_nil in Hw].
    apply list_elem_of_In in Hw, Hes. by apply (IH _ Hes _ Hsub Hw).
Qed.

Lemma cache_walk_is_scan_walk (tree : Dir) (top : string) :
  all_dirs check_succeeds tree = true →
  os_walk cache_keep top tree = os_walk prune top tree.
Proof.
  revert top. induction tree as [filenames dirnames IH] using Dir_nested_ind.
  intros top H. cbn [os_walk all_dirs] in *. f_equal.
  induction dirnames as [|[e sub] dirnames IHd]; [done|].
  cbn [flat_map forallb] in *.
  apply andb_prop in H as [[He Hs]%andb_prop Hd].
  apply Forall_cons in IH as [IHsub IHrest].
  rewrite (IHd IHrest Hd). f_equal.
  unfold check_succeeds in He. apply negb_true_iff in He.
  unfold prune, cache_keep. rewrite He.
  destruct (d_islink e), (d_ismount e); try done.
  cbn. by apply IHsub.
Qed.

Lemma length_readable (rs : list (string * FileEntry)) :
  length rs = (length (readable rs) + length (unreadable rs))%nat.
Proof.
  induction rs as [|r rs IH]; [done|].
  rewrite readable_cons. unfold unreadable in *. rewrite filter_cons, length_app.
  destruct (f_size r.2) as [sz|].
  - rewrite decide_False by done. simpl. lia.
  - rewrite decide_True by done. simpl. lia.
Qed.

(** X15. On a tree where the mount check never raises, the round of
    [get_cache_summary] and a scan that is not cancelled walk the same
    directories: both return the same number of bytes, and the scan
    counts the files of the cache round and, beside them, the files whose
    size cannot be read. *)
Theorem cache_summary_and_scan_agree_on_bytes (top_n : Z) (args : Args)
    (folder : string) (tree : Dir) :
  all_dirs check_succeeds tree = true →
  interval_ok args → not_cancelled args (length (enumerate folder tree)) →
  ∃ m s, cache_summary_of top_n folder (Some tree) = inr m ∧
         collect_folder_stats_streaming args folder tree = inr s ∧
         m_size m = r_total_size s ∧
         r_total_files s =
           m_files m + Z.of_nat (length (unreadable (enumerate folder tree))).
Proof.
  intros Hch Hok Hnc.
  assert (Hrec : cache_records folder (Some tree) = enumerate folder tree).
  { unfold cache_records, flat_records, enumerate, cache_walk.
    by rewrite cache_walk_is_scan_walk. }
  eexists _, _. split_and!.
  - apply cache_summary_returns. apply Forall_forall. intros w Hw.
    apply not_true_is_false. intros Hr.
    apply existsb_exists in Hr as ([e sub] & Hin & [_ Hm]%andb_prop).
    apply list_elem_of_In in Hin.
    pose proof (all_dirs_walk check_succeeds cache_keep tree folder w e sub Hch Hw Hin) as Hc.
    unfold check_succeeds in Hc. cbn [fst] in Hm. by rewrite Hm in Hc.
  - by apply collect_complete.
  - cbn [m_size stats_of r_total_size].
    rewrite advance_all_total_size, readable_size_getsize, Hrec. cbn [init total_size]. lia.
  - cbn [m_files stats_of r_total_files].
    rewrite advance_all_total_files, Hrec. cbn [init total_files].
    rewrite (length_readable (enumerate folder tree)). lia.
Qed.

Lemma cache_summary_and_scan_agree_on_bytes_witness :
  ∃ m s, cache_summary_of 10 "root" (Some sample_tree) = inr m ∧
         collect_folder_stats_streaming plain_args "root" sample_tree = inr s ∧
         m_size m = r_total_size s ∧
         r_total_files s =
           m_files m + Z.of_nat (length (unreadable (enumerate "root" sample_tree))).
Proof.
  apply (cache_summary_and_scan_agree_on_bytes 10 plain_args "root" sample_tree).
  - reflexivity.
  - by left.
  - intros k _. reflexivity.
Defined.

(** ** The cache paths *)

Section CachePathFacts.
Context (normpath : string → string) (path_exists : string → bool).

Local Abbreviation step := (dedupe_step normpath path_exists).
Local Abbreviation accepted := (accepted normpath path_exists).

Lemma is_empty_spec (p : string) : Str.is_empty p = true ↔ p = EmptyString.
Proof. by destruct p. Qed.

Lemma step_cases (unique seen : list string) (p : string) :
  (step (unique, seen) p = (unique, seen) ∧
   (p = EmptyString ∨ normpath p ∈ seen ∨ path_exists (normpath p) = false)) ∨
  (step (unique, seen) p = (unique ++ [normpath p], set_add (normpath p) seen) ∧
   accepted p ∧ normpath p ∉ seen).
Proof.
  unfold dedupe_step, accepted. cbn [fst snd].
  destruct (Str.is_empty p) eqn:Hp.
  { apply is_empty_spec in Hp. left. split; [done|by left]. }
  assert (p ≠ EmptyString) by (intros ->; done).
  case_bool_decide as Hin; [left; split; [done|right; by left]|].
  destruct (path_exists (normpath p)) eqn:Hex.
  - right. by split_and!.
  - left. split; [done|]. right. by right.
Qed.

Lemma dedupe_loop (cands : list string) (unique seen : list string) :
  NoDup unique → (∀ x, x ∈ seen ↔ x ∈ unique) →
  let st := fold_left step cands (unique, seen) in
  NoDup st.1 ∧ (∀ x, x ∈ st.2 ↔ x ∈ st.1) ∧
  (∀ x, x ∈ st.1 ↔ x ∈ unique ∨ ∃ c, c ∈ cands ∧ accepted c ∧ normpath c = x) ∧
  ∃ new, st.1 = unique ++ new ∧ sublist new (normpath <$> cands).
Proof.
  revert unique seen. induction cands as [|p cands IH]; intros unique seen Hnd Hseen; cbn zeta.
  - cbn [fold_left fst snd]. split_and!; [done|done| |].
    + intros x. split; [by left|]. intros [?|(c & Hc%elem_of_nil & _)]; done.
    + exists []. by rewrite app_nil_r.
  - cbn [fold_left].
    destruct (step_cases unique seen p) as [[-> Hskip]|(-> & Hacc & Hfresh)].
    + destruct (IH unique seen Hnd Hseen) as (H1 & H2 & H3 & new & H4 & H5).
      split_and!; [done|done| |].
      * intros x. rewrite H3. split.
        -- intros [?|(c & Hc & Ha & Hx)]; [by left|right].
           exists c. split; [apply elem_of_cons; by right|done].
        -- intros [?|(c & [->|Hc]%elem_of_cons & Ha & Hx)]; [by left| |right; by exists c].
           destruct Ha as [Hne Hex]. destruct Hskip as [?|[Hin|?]]; [done| |congruence].
           left. subst x. by apply Hseen.
      * exists new. split; [done|]. rewrite fmap_cons. by apply sublist_cons.
    + assert (normpath p ∉ unique) by (by rewrite <-Hseen).
      destruct (IH (unique ++ [normpath p]) (set_add (normpath p) seen))
        as (H1 & H2 & H3 & new & H4 & H5).
      { apply NoDup_app. split_and!; [done| |apply NoDup_singleton].
        by intros y Hy ->%list_elem_of_singleton. }
      { intros x. rewrite set_add_elem, elem_of_app, list_elem_of_singleton, Hseen. tauto. }
      split_and!; [done|done| |].
      * intros x. rewrite H3, elem_of_app, list_elem_of_singleton. split.
        -- intros [[?| ->]|(c & Hc & Ha & Hx)].
           ++ by left.
           ++ right. exists p. split_and!; [apply elem_of_cons; by left|done|done].
           ++ right. exists c. split; [apply elem_of_cons; by right|done].
        -- intros [?|(c & [->|Hc]%elem_of_cons & Ha & Hx)].
           ++ left. by left.
           ++ left. by right.
           ++ right. by exists c.
      * exists (normpath p :: new). split.
        -- by rewrite H4, <-(assoc_L (++)).
        -- rewrite fmap_cons. by apply sublist_skip.
Qed.

Lemma dedupe_spec (cands : list string) :
  let unique := dedupe normpath path_exists cands in
  NoDup unique ∧
  sublist unique (normpath <$> cands) ∧
  ∀ x, x ∈ unique ↔
       ∃ c, c ∈ cands ∧ c ≠ EmptyString ∧ normpath c = x ∧ path_exists x = true.
Proof.
  cbn zeta. unfold dedupe.
  destruct (dedupe_loop cands [] [] (NoDup_nil_2) (λ x, reflexivity _))
    as (H1 & _ & H3 & new & H4 & H5).
  split_and!; [done|by rewrite H4| ].
  intros x. rewrite H3, elem_of_nil. split.
  - intros [[]|(c & Hc & [Hne Hex] & <-)]. by exists c.
  - intros (c & Hc & Hne & <- & Hex). right. by exists c.
Qed.
End CachePathFacts.

Section CacheSummaryFacts.
Context (environ_get : string → string)
        (join : string → list string → string)
        (normpath : string → string)
        (path_exists : string → bool)
        (tree_at : string → option Dir).

Local Abbreviation paths := (get_common_cache_paths environ_get join normpath path_exists).
Local Abbreviation cands := (candidates environ_get join).

(** X16. [get_common_cache_paths] returns no path twice and at most 8
    paths, in the order of the candidate list; a path is returned exactly
    when it is the normalised form of a non-empty candidate and exists. *)
Theorem cache_paths_are_the_existing_candidates :
  let unique := get_common_cache_paths environ_get join normpath path_exists in
  NoDup unique ∧
  sublist unique (normpath <$> candidates environ_get join) ∧
  (length unique ≤ 8)%nat ∧
  ∀ x, x ∈ unique ↔
       ∃ c, c ∈ candidates environ_get join ∧ c ≠ EmptyString ∧
            normpath c = x ∧ path_exists x = true.
Proof.
  destruct (dedupe_spec normpath path_exists cands) as (H1 & H2 & H3).
  split_and!; [done|done| |done].
  apply sublist_length in H2. by rewrite length_fmap in H2.
Qed.

(** X17. When [LOCALAPPDATA], [USERPROFILE], [WINDIR] and [APPDATA] are
    all unset or empty, there is no cache path and the cache summary is
    the empty dictionary. *)
Theorem no_environment_no_cache_paths :
  environ_get "LOCALAPPDATA" = EmptyString →
  environ_get "USERPROFILE" = EmptyString →
  environ_get "WINDIR" = EmptyString →
  environ_get "APPDATA" = EmptyString →
  get_common_cache_paths environ_get join normpath path_exists = [] ∧
  ∀ top_n, get_cache_summary environ_get join normpath path_exists tree_at top_n = inr [].
Proof.
  intros H1 H2 H3 H4.
  assert (paths = []) as E.
  { unfold get_common_cache_paths, candidates, under. by rewrite H1, H2, H3, H4. }
  split; [done|]. intros top_n. unfold get_cache_summary. by rewrite E.
Qed.

(** ** The outer loop of the cache summary *)

Lemma meta_set_fresh (d : list (string * CacheMeta)) (p : string) (m : CacheMeta) :
  p ∉ d.*1 → meta_set d p m = d ++ [(p, m)].
Proof.
  induction d as [|[p' m'] d IH]; intros Hp; [done|].
  cbn [meta_set]. rewrite fmap_cons, not_elem_of_cons in Hp. destruct Hp as [Hne Hp].
  cbn [fst] in Hne.
  destruct (String.eqb_spec p' p) as [->|_]; [done|].
  by rewrite IH.
Qed.

Lemma cache_summaries_loop (top_n : Z) (ps : list string) (acc : list (string * CacheMeta)) :
  NoDup (acc.*1 ++ ps) →
  let body := λ result p,
    match cache_summary_of top_n p (tree_at p) with
    | inl e => inl e
    | inr m => inr (meta_set result p m)
    end in
  match try_each body acc ps with
  | inr res =>
      ∃ new, res = acc ++ new ∧ new.*1 = ps ∧
             Forall (λ pm, cache_summary_of top_n pm.1 (tree_at pm.1) = inr pm.2) new
  | inl CheckRaised =>
      ∃ p, p ∈ ps ∧ cache_summary_of top_n p (tree_at p) = inl CheckRaised
  end.
Proof.
  cbn zeta. revert acc. induction ps as [|p ps IH]; intros acc Hnd; cbn [try_each].
  - exists []. by rewrite app_nil_r.
  - destruct (cache_summary_of top_n p (tree_at p)) as [[]|m] eqn:E.
    + exists p. split; [apply elem_of_cons; by left|done].
    + assert (p ∉ acc.*1) as Hfresh.
      { apply NoDup_app in Hnd as (_ & Hd & _). intros Hin.
        apply (Hd p Hin). apply elem_of_cons. by left. }
      rewrite meta_set_fresh by done.
      specialize (IH (acc ++ [(p, m)])).
      rewrite fmap_app, <-(assoc_L (++)) in IH. specialize (IH Hnd).
      destruct (try_each _ _ ps) as [[]|res].
      * destruct IH as (q & Hq & Hr). exists q. split; [apply elem_of_cons; by right|done].
      * destruct IH as (new & -> & Hk & Hv). exists ((p, m) :: new).
        split_and!; [by rewrite <-(assoc_L (++))|by rewrite fmap_cons, Hk|].
        by constructor.
Qed.

(** X18. When [get_cache_summary] returns, its dictionary has one entry
    for each cache path, in the order of the paths, and the entry of a
    path is what the round for that path computed; it raises only when
    the round of one of the paths does. *)
Theorem cache_summary_has_one_entry_per_path (top_n : Z) :
  match get_cache_summary environ_get join normpath path_exists tree_at top_n with
  | inr result =>
      result.*1 = get_common_cache_paths environ_get join normpath path_exists ∧
      ∀ p m, (p, m) ∈ result ↔
             p ∈ get_common_cache_paths environ_get join normpath path_exists ∧
             cache_summary_of top_n p (tree_at p) = inr m
  | inl CheckRaised =>
      ∃ p, p ∈ get_common_cache_paths environ_get join normpath path_exists ∧
           cache_summary_of top_n p (tree_at p) = inl CheckRaised
  end.
Proof.
  destruct (dedupe_spec normpath path_exists cands) as (Hnd & _ & _).
  pose proof (cache_summaries_loop top_n paths [] Hnd) as H. cbn zeta in H.
  unfold get_cache_summary, cache_summaries.
  destruct (try_each _ _ _) as [[]|res]; [done|].
  destruct H as (new & -> & Hk & Hv). rewrite app_nil_l.
  split; [done|]. intros p m. rewrite Forall_forall in Hv. split.
  - intros Hin. split.
    + rewrite <-Hk. apply list_elem_of_fmap. by exists (p, m).
    + by apply (Hv (p, m)).
  - intros [Hp Hm]. rewrite <-Hk in Hp.
    apply list_elem_of_fmap in Hp as ([p' m'] & -> & Hin).
    pose proof (Hv _ Hin) as Hm'. cbn [fst snd] in *.
    by replace m with m' by congruence.
Qed.
End CacheSummaryFacts.

Lemma no_environment_no_cache_paths_witness :
  get_common_cache_paths (λ _, EmptyString) (λ base _, base) (λ p, p) (λ _, true) = [] ∧
  ∀ top_n, get_cache_summary (λ _, EmptyString) (λ base _, base) (λ p, p) (λ _, true)
             (λ _, None) top_n = inr [].
Proof.
  apply (no_environment_no_cache_paths (λ _, EmptyString) (λ base _, base) (λ p, p)
           (λ _, true) (λ _, None)); reflexivity.
Defined.

(** ** The scans started from the two pages *)

Lemma enumerate_le_quick_count (path : string) (tree : Dir) :
  Z.of_nat (length (enumerate path tree)) ≤ quick_count_files path tree.
Proof.
  rewrite quick_count_files_length, enumerate_length.
  pose proof (os_walk_prune_le tree path). lia.
Qed.

Lemma delivered_within (args : Args) (rs : list (string * FileEntry)) :
  Forall (λ ev : event, ev.2 = total_estimate args ∧ 0 < ev.1 ≤ Z.of_nat (length rs))
         (delivered (advance_all args init rs)).
Proof.
  rewrite advance_all_delivered. cbn [init delivered processed]. rewrite app_nil_l.
  destruct (progress_callback args); [|constructor].
  apply Forall_fmap, Forall_forall. intros v Hv%periodic_bounds. cbn. split; [done|lia].
Qed.

(** X19. The scan started by [dashboard_scan] and by [folder_visualize]
    returns a tuple whatever the callback and the cancellation event do.
    Every progress event it delivers carries the estimate of
    [quick_count_files] and a count between 0 and that estimate, so that
    [processed / max(1, total_est)] is at most 1 before [min] is applied;
    and its top list has at most 25 items. The tree is the same for the
    count and for the scan. *)
Theorem worker_progress_stays_within_estimate (progress_cb : callback)
    (is_set : nat → bool) (path : string) (tree : Dir) :
  ∃ r, worker_scan progress_cb is_set path tree = inr r ∧
       Forall (λ ev : event, ev.2 = Some (quick_count_files path tree) ∧
                             0 ≤ ev.1 ≤ quick_count_files path tree)
              (run_delivered r) ∧
       Z.of_nat (length (r_top_files (run_stats r))) ≤ 25.
Proof.
  set (args := worker_args progress_cb is_set path tree).
  assert (Hok : interval_ok args) by (by right).
  pose proof (enumerate_le_quick_count path tree) as Hle.
  assert (Htop : ∀ rs, Z.of_nat (length (r_top_files (stats_of (advance_all args init rs)))) ≤ 25).
  { intros rs. cbn [stats_of r_top_files].
    destruct (top_k_of_result _ _ _ (advance_all_top_k args rs)) as [_ ->].
    change (top_n args) with 25. lia. }
  unfold worker_scan. fold args. rewrite scan_flat.
  destruct (loop_outcome args (enumerate path tree) init Hok)
    as (n & _ & [[-> E]|(Hlt & _ & E)]); rewrite E.
  - eexists. split; [done|]. split.
    + rewrite (run_delivered_finish args progress_cb) by done.
      apply Forall_app. split.
      * eapply Forall_impl; [apply delivered_within|].
        intros ev [-> Hv]. split; [done|]. cbn beta in Hv. lia.
      * apply Forall_singleton. rewrite advance_all_processed.
        cbn [init processed fst snd]. split; [done|]. lia.
    + unfold finish. change (progress_callback args) with (Some progress_cb).
      cbn [run_stats]. rewrite stats_of_deliver. apply Htop.
  - eexists. split; [done|]. cbn [run_delivered run_stats]. split; [|apply Htop].
    eapply Forall_impl; [apply delivered_within|].
    intros ev [-> Hv]. split; [done|]. cbn beta in Hv. rewrite length_take in Hv. lia.
Qed.

(** ** Cleaning a cache path *)

Section Cleaning.
Context (send2trash rmdir : string → bool).

Local Abbreviation goes := (λ p : string, send2trash p = true).
Local Abbreviation stays := (λ p : string, send2trash p = false).

Lemma trash_files (dirpath : string) (fs : list FileEntry) (c : Counts)
    (kept : list FileEntry) :
  let paths := map (λ f, path_join dirpath (f_name f)) fs in
  let t := fold_left (trash_file send2trash dirpath) fs (c, kept) in
  cleaned t.1 = cleaned c + Z.of_nat (length (filter goes paths)) ∧
  skipped t.1 = skipped c + Z.of_nat (length (filter stays paths)) ∧
  ∃ left, t.2 = kept ++ left ∧
          map (λ f, path_join dirpath (f_name f)) left = filter stays paths.
Proof.
  revert c kept. induction fs as [|f fs IH]; intros c kept; cbn zeta.
  - cbn. split_and!; [lia|lia|]. exists []. by rewrite app_nil_r.
  - cbn [fold_left map]. rewrite !filter_cons. unfold trash_file at 2 4 6. cbn [fst snd].
    destruct (send2trash (path_join dirpath (f_name f))) eqn:E.
    + rewrite decide_True, decide_False by (done || congruence).
      destruct (IH {| cleaned := cleaned c + 1; skipped := skipped c |} kept)
        as (H1 & H2 & left & H3 & H4).
      cbn zeta in *. rewrite H1, H2. cbn [cleaned skipped length].
      split_and!; [lia|lia|]. by exists left.
    + rewrite decide_False, decide_True by (done || congruence).
      destruct (IH {| cleaned := cleaned c; skipped := skipped c + 1 |} (kept ++ [f]))
        as (H1 & H2 & left & H3 & H4).
      cbn zeta in *. rewrite H1, H2. cbn [cleaned skipped length].
      split_and!; [lia|lia|]. exists (f :: left). split.
      * by rewrite H3, <-(assoc_L (++)).
      * cbn [map]. by rewrite H4.
Qed.

Lemma listdir_empty_spec (d : Dir) : listdir_empty d = true → d = MkDir [] [].
Proof. by destruct d as [[|??] [|??]]. Qed.

Lemma all_paths_unfold (top : string) (fs : list FileEntry) (subs : listing) :
  all_paths top (MkDir fs subs) =
  map (λ f, path_join top (f_name f)) fs ++ flat_map (sub_paths top) subs.
Proof.
  unfold all_paths, walk_paths. cbn [os_walk flat_map]. f_equal.
  induction subs as [|[e sub] subs IH]; [done|].
  cbn [flat_map fst snd]. rewrite flat_map_app, IH. f_equal.
  unfold sub_paths, no_prune. cbn [fst snd]. by destruct (d_islink e).
Qed.

Lemma descend_cons (walk : string → Dir → Counts → Counts * Dir) (top : string)
    (e : DirEntry) (sub : Dir) (l : listing) (c : Counts) :
  descend walk rmdir top ((e, sub) :: l) c =
  if removed rmdir top (e, sub) then descend walk rmdir top l c
  else if d_islink e then
    ((descend walk rmdir top l c).1, (e, sub) :: (descend walk rmdir top l c).2)
  else
    let s := walk (path_join top (d_name e)) sub c in
    ((descend walk rmdir top l s.1).1, (e, s.2) :: (descend walk rmdir top l s.1).2).
Proof. done. Qed.

Lemma sub_paths_removed (top : string) (e : DirEntry) (sub : Dir) :
  removed rmdir top (e, sub) = true → sub_paths top (e, sub) = [].
Proof.
  unfold removed, sub_paths. cbn [fst snd].
  intros [->%listdir_empty_spec _]%andb_prop. by destruct (d_islink e).
Qed.

Lemma filter_flat_map {A B} (P : B → Prop) `{∀ x, Decision (P x)}
    (f : A → list B) (l : list A) :
  filter P (flat_map f l) = flat_map (λ x, filter P (f x)) l.
Proof.
  induction l as [|x l IH]; [done|]. cbn [flat_map]. by rewrite filter_app, IH.
Qed.

Lemma clean_walk_spec (top : string) (d : Dir) (c : Counts) :
  let r := clean_walk send2trash rmdir top d c in
  cleaned r.1 = cleaned c + Z.of_nat (length (filter goes (all_paths top d))) ∧
  skipped r.1 = skipped c + Z.of_nat (length (filter stays (all_paths top d))) ∧
  all_paths top r.2 = filter stays (all_paths top d).
Proof.
  revert top c. induction d as [fs subs IH] using Dir_nested_ind. intros top c.
  cbn zeta. cbn [clean_walk]. cbn [fst snd].
  destruct (trash_files top fs c []) as (T1 & T2 & left & T3 & T4).
  cbn zeta in *. rewrite app_nil_l in T3.
  set (t := fold_left (trash_file send2trash top) fs (c, [])) in *.
  rewrite !all_paths_unfold, !filter_app, !length_app, T3, T4.
  assert (G : ∀ c0,
    let r := descend (clean_walk send2trash rmdir) rmdir top subs c0 in
    cleaned r.1 =
      cleaned c0 + Z.of_nat (length (filter goes (flat_map (sub_paths top) subs))) ∧
    skipped r.1 =
      skipped c0 + Z.of_nat (length (filter stays (flat_map (sub_paths top) subs))) ∧
    flat_map (sub_paths top) r.2 = filter stays (flat_map (sub_paths top) subs)).
  { clear T1 T2 T3 T4. induction subs as [|[e sub] subs IHs]; intros c0; cbn zeta.
    - cbn. split_and!; [lia|lia|done].
    - apply Forall_cons in IH as [IHsub IHrest]. specialize (IHs IHrest).
      cbn [snd] in IHsub.
      rewrite descend_cons. cbn [flat_map]. rewrite !filter_app, !length_app.
      destruct (removed rmdir top (e, sub)) eqn:Hrm.
      + rewrite (sub_paths_removed _ _ _ Hrm), !filter_nil. cbn [length app].
        destruct (IHs c0) as (H1 & H2 & H3). cbn zeta in *.
        split_and!; [lia|lia|done].
      + destruct (d_islink e) eqn:Hl.
        * destruct (IHs c0) as (H1 & H2 & H3). cbn zeta in *.
          cbn [fst snd flat_map]. unfold sub_paths at 1 3 5 7. cbn [fst snd].
          rewrite Hl, !filter_nil. cbn [length app].
          split_and!; [lia|lia|done].
        * destruct (IHsub (path_join top (d_name e)) c0) as (S1 & S2 & S3).
          cbn zeta in *.
          destruct (IHs (clean_walk send2trash rmdir (path_join top (d_name e)) sub c0).1)
            as (H1 & H2 & H3). cbn zeta in *.
          cbn [fst snd flat_map]. unfold sub_paths at 1 3 5 7. cbn [fst snd].
          rewrite Hl, H1, H2, H3, S1, S2, S3. split_and!; [lia|lia|done]. }
  destruct (G t.1) as (G1 & G2 & G3). cbn zeta in *.
  rewrite G1, G2, G3, T1, T2. split_and!; [lia|lia|done].
Qed.

Lemma length_filter_split (l : list string) :
  (length (filter goes l) + length (filter stays l))%nat = length l.
Proof.
  induction l as [|p l IH]; [done|]. rewrite !filter_cons.
  destruct (send2trash p) eqn:E.
  - rewrite decide_True, decide_False by (done || congruence). simpl. lia.
  - rewrite decide_False, decide_True by (done || congruence). simpl. lia.
Qed.

Lemma filter_goes_stays (l : list string) : filter goes (filter stays l) = [].
Proof.
  induction l as [|p l IH]; [done|]. rewrite filter_cons.
  destruct (send2trash p) eqn:E.
  - by rewrite decide_False by congruence.
  - rewrite decide_True by done. rewrite filter_cons, decide_False by congruence. done.
Qed.

Lemma all_paths_length (top : string) (d : Dir) :
  Z.of_nat (length (all_paths top d)) = quick_count_files top d.
Proof.
  rewrite quick_count_files_length. f_equal. unfold all_paths, walk_paths.
  induction (os_walk no_prune top d) as [|w ws IH]; [done|].
  cbn [flat_map]. by rewrite !length_app, length_map, IH.
Qed.

(** X20. The walk of [cache_clean_all] over a cache path calls
    [send2trash] once on every file that an unpruned walk of the tree
    reaches: [cleaned] grows by the number of files on which the call
    returns, [skipped] by the number on which it raises, and the two
    together by [quick_count_files] of the path. Removing the empty
    directories on the way hides no file from the walk. *)
Theorem cleaning_attempts_every_file_once (top : string) (d : Dir) (c : Counts) :
  let r := clean_walk send2trash rmdir top d c in
  cleaned r.1 = cleaned c + Z.of_nat (length (filter (λ p, send2trash p = true) (all_paths top d))) ∧
  skipped r.1 = skipped c + Z.of_nat (length (filter (λ p, send2trash p = false) (all_paths top d))) ∧
  cleaned r.1 + skipped r.1 = cleaned c + skipped c + quick_count_files top d.
Proof.
  cbn zeta. destruct (clean_walk_spec top d c) as (H1 & H2 & _). cbn zeta in *.
  split_and!; [done|done|].
  rewrite H1, H2, <-all_paths_length, <-(length_filter_split (all_paths top d)). lia.
Qed.

(** X21. After the walk the files left below the path are those counted
    as skipped, at the paths they had: counting the files again gives the
    growth of [skipped], and a second walk in which [send2trash] refuses
    the same files cleans nothing. *)
Theorem skipped_files_are_what_is_left (top : string) (d : Dir) (c : Counts) :
  let r := clean_walk send2trash rmdir top d c in
  all_paths top r.2 = filter (λ p, send2trash p = false) (all_paths top d) ∧
  quick_count_files top r.2 = skipped r.1 - skipped c ∧
  ∀ c', cleaned (clean_walk send2trash rmdir top r.2 c').1 = cleaned c'.
Proof.
  cbn zeta. destruct (clean_walk_spec top d c) as (_ & H2 & H3). cbn zeta in *.
  split_and!; [done| |].
  - rewrite <-all_paths_length, H3, H2. lia.
  - intros c'. destruct (clean_walk_spec top (clean_walk send2trash rmdir top d c).2 c')
      as (H1' & _). cbn zeta in *. rewrite H1', H3, filter_goes_stays. simpl. lia.
Qed.

Lemma os_walk_keep_le (keep : DirEntry → bool) (tree : Dir) (top : string) :
  (length (flat_map (λ w : walk_item, w.2) (os_walk keep top tree)) ≤
   length (flat_map (λ w : walk_item, w.2) (os_walk no_prune top tree)))%nat.
Proof.
  revert top. induction tree as [filenames dirnames IH] using Dir_nested_ind.
  intros top. cbn [os_walk flat_map]. rewrite !length_app.
  apply Nat.add_le_mono_l.
  induction dirnames as [|[e sub] dirnames IHd]; [done|].
  apply Forall_cons in IH as [IHsub IHrest].
  cbn [flat_map]. rewrite !flat_map_app, !length_app.
  apply Nat.add_le_mono; [|by apply IHd].
  unfold no_prune. destruct (keep e), (d_islink e); cbn; try lia.
  apply IHsub.
Qed.

Lemma length_readable_le (rs : list (string * FileEntry)) :
  (length (readable rs) ≤ length rs)%nat.
Proof. rewrite (length_readable rs). lia. Qed.

Lemma flat_records_length (ws : list walk_item) :
  length (flat_records ws) = length (flat_map (λ w : walk_item, w.2) ws).
Proof.
  unfold flat_records. induction ws as [|w ws IH]; [done|].
  cbn [flat_map]. by rewrite !length_app, length_map, IH.
Qed.

(** X22. The cleaning reaches every file that the cache summary counted
    for the path: the number of calls of [send2trash] is at least the
    [files] of the summary. It can be larger, the walk of the cleaning
    leaving out neither the mount points nor the files whose size cannot
    be read. *)
Theorem cleaning_reaches_the_summarised_files (top_n : Z) (p : string) (d : Dir)
    (m : CacheMeta) (c : Counts) :
  cache_summary_of top_n p (Some d) = inr m →
  let r := clean_walk send2trash rmdir p d c in
  m_files m ≤ (cleaned r.1 + skipped r.1) - (cleaned c + skipped c).
Proof.
  intros H. cbn zeta.
  rewrite (cache_summary_returns top_n p (Some d) (cache_summary_checked _ _ _ _ H)) in H.
  injection H as <-. cbn [m_files].
  destruct (clean_walk_spec p d c) as (H1 & H2 & _). cbn zeta in *.
  rewrite H1, H2.
  pose proof (length_filter_split (all_paths p d)) as Hs.
  pose proof (all_paths_length p d) as Ha. rewrite quick_count_files_length in Ha.
  pose proof (length_readable_le (cache_records p (Some d))) as Hr.
  unfold cache_records in Hr at 2. rewrite flat_records_length in Hr.
  pose proof (os_walk_keep_le cache_keep d p) as Hk. cbn [cache_walk] in Hr.
  lia.
Qed.
End Cleaning.

Lemma cleaning_reaches_the_summarised_files_witness :
  let r := clean_walk (λ p, negb (String.eqb p "c/lock")) (λ _, true) "c" cache_tree
             (mkCounts 0 0) in
  m_files {| m_size := 14; m_files := 3; m_folders := 3;
             m_top := [(9, "c/logs/x.log"%string); (4, "c/a.tmp"%string);
                       (1, "c/lock"%string)] |} ≤
  (cleaned r.1 + skipped r.1) - (cleaned (mkCounts 0 0) + skipped (mkCounts 0 0)).
Proof.
  apply (cleaning_reaches_the_summarised_files
           (λ p, negb (String.eqb p "c/lock")) (λ _, true) 10 "c" cache_tree).
  reflexivity.
Defined.
